(** * boost::pfr::detail: offset-based member access and flat reference tuples

    A shallow embedding of
      - include/boost/pfr/detail/offset_based_getter.hpp
      - include/boost/pfr/detail/make_flat_tuple_of_references.hpp

    Types are described by their size and alignment, and a
    [sequence_tuple::tuple] type also by its element types; objects live in
    a byte-addressed memory; a reference is an address together with the
    referenced type and its cv-qualification. A template instantiation that
    is ill-formed (an index past the end of a tuple, a failed static_assert)
    is the [None] result of the instantiation. *)

From Equations Require Import Equations.
From Stdlib Require Import String.
From Stdlib Require Import ZArith NArith List Lia Bool.
From Stdlib Require Import Strings.Byte.
Import ListNotations.

Local Open Scope Z_scope.

(** ** std::size_t *)

Definition size_t_bits : N := 64.
Definition size_t_modulus : N := 2 ^ size_t_bits.

(** Unsigned addition of two [std::size_t] values (wraps around). *)
Definition size_t_add (a b : N) : N := ((a + b) mod size_t_modulus)%N.

(** [std::make_index_sequence<n>]: the indices 0, 1, ..., n-1. *)
Definition make_index_sequence (n : N) : list N :=
  map N.of_nat (seq 0 (N.to_nat n)).

(** Positional lookup by a [std::size_t] index. *)
Fixpoint nth_N {A : Type} (l : list A) (i : N) : option A :=
  match l with
  | [] => None
  | x :: l' => if (i =? 0)%N then Some x else nth_N l' (N.pred i)
  end.

(** ** Layout *)

(** Smallest multiple of [a] that is not below [x]. *)
Definition align_up (x a : Z) : Z := ((x + a - 1) / a) * a.

(** Largest multiple of [a] that is not above [x]. *)
Definition align_down (x a : Z) : Z := (x / a) * a.

(** What the layout of an aggregate needs to know of a member:
    its size and its alignment. *)
Definition shape : Type := (Z * Z)%type.

(** Modelled from the spec: the object layout of an aggregate, which the
    sources leave to the compiler: members are placed in declaration order,
    each at the first suitably aligned offset after the previous member
    ("the ordered concatenation of its member types with their natural
    padding"). [layout_from cur l] places members of the shapes [l] from
    offset [cur] on. *)
Fixpoint layout_from (cur : Z) (l : list shape) : list Z :=
  match l with
  | [] => []
  | (s, a) :: l' =>
      let o := align_up cur a in
      o :: layout_from (o + s) l'
  end.

(** First offset past the last member. *)
Fixpoint layout_end (cur : Z) (l : list shape) : Z :=
  match l with
  | [] => cur
  | (s, a) :: l' => layout_end (align_up cur a + s) l'
  end.

(** Modelled from the spec: alignof of an aggregate, the strictest member
    alignment (1 when there is no member). *)
Definition aggregate_alignof (l : list shape) : Z :=
  fold_right (fun m a => Z.max (snd m) a) 1 l.

(** Modelled from the spec: sizeof of an aggregate, the end of the last
    member rounded up to the aggregate's alignment; an empty aggregate
    occupies one byte. *)
Definition aggregate_sizeof (l : list shape) : Z :=
  Z.max 1 (align_up (layout_end 0 l) (aggregate_alignof l)).

(** ** Types, qualifiers, references *)

(** An object type is either some type that is not a [sequence_tuple::tuple]
    (of which only name, size and alignment matter here) or
    [sequence_tuple::tuple<Ts...>]. *)
Local Unset Elimination Schemes.

Inductive type_info : Type :=
| Object (name : string) (size align : Z)
| SeqTuple (elems : list type_info).

Local Set Elimination Schemes.

(** Modelled from the spec: sequence_tuple.hpp is not among the sources;
    [tuple<Ts...>] is laid out as the aggregate of its element types. *)
Fixpoint ty_shape (T : type_info) : shape :=
  match T with
  | Object _ s a => (s, a)
  | SeqTuple Ts =>
      (aggregate_sizeof (map ty_shape Ts), aggregate_alignof (map ty_shape Ts))
  end.

Definition ty_sizeof (T : type_info) : Z := fst (ty_shape T).
Definition ty_alignof (T : type_info) : Z := snd (ty_shape T).

Definition member_offsets (Ts : list type_info) : list Z :=
  layout_from 0 (map ty_shape Ts).

(** Positive alignment, positive size, and a size that is a multiple of the
    alignment (arrays of the type are contiguous). *)
Definition shape_ok (m : shape) : bool :=
  (0 <? snd m) && (0 <? fst m) && (fst m mod snd m =? 0).

(** A complete object type: a good shape, and for a tuple, element types
    that are complete object types, and a number of elements that is a
    [std::size_t]. *)
Fixpoint object_type (T : type_info) : bool :=
  match T with
  | Object _ s a => shape_ok (s, a)
  | SeqTuple Ts =>
      forallb object_type Ts
      && (N.of_nat (length Ts) <? size_t_modulus)%N
  end.

Definition object_types (Ts : list type_info) : bool := forallb object_type Ts.

(** How deep tuple types are nested in a type. *)
Fixpoint nesting (T : type_info) : nat :=
  match T with
  | Object _ _ _ => 0
  | SeqTuple Ts => S (fold_right (fun T' n => Nat.max (nesting T') n) 0%nat Ts)
  end.

Inductive cv_qual : Type :=
| cv_none | cv_const | cv_volatile | cv_const_volatile.

Definition is_const (q : cv_qual) : bool :=
  match q with cv_const | cv_const_volatile => true | _ => false end.

Definition is_volatile (q : cv_qual) : bool :=
  match q with cv_volatile | cv_const_volatile => true | _ => false end.

(** [cv T *] *)
Record pointer : Type := {
  p_addr : Z;
  p_type : type_info;
  p_cv : cv_qual
}.

(** [cv T &] *)
Record reference : Type := {
  r_addr : Z;
  r_type : type_info;
  r_cv : cv_qual
}.

(** [*p] *)
Definition deref (p : pointer) : reference :=
  {| r_addr := p_addr p; r_type := p_type p; r_cv := p_cv p |}.

(** An lvalue of the user's struct type: where it lives and how the
    expression naming it is qualified. *)
Record lvalue : Type := {
  lv_addr : Z;
  lv_cv : cv_qual
}.

(** The type [U] handed to the accessor template: a struct with the members
    the compiler laid out, possibly cv-qualified or a reference type. *)
Record struct_type : Type := {
  st_members : list (type_info * Z);   (* member type, byte offset *)
  st_sizeof : Z;
  st_alignof : Z;
  st_const : bool;
  st_volatile : bool;
  st_reference : bool
}.

Definition member_offset (U : struct_type) (i : N) : option Z :=
  option_map snd (nth_N (st_members U) i).

Definition member_type (U : struct_type) (i : N) : option type_info :=
  option_map fst (nth_N (st_members U) i).

(** The unqualified simple aggregate [struct U { T0 m0; T1 m1; ... };]. *)
Definition aggregate (Ts : list type_info) : struct_type :=
  {| st_members := combine Ts (member_offsets Ts);
     st_sizeof := aggregate_sizeof (map ty_shape Ts);
     st_alignof := aggregate_alignof (map ty_shape Ts);
     st_const := false;
     st_volatile := false;
     st_reference := false |}.

(** ** sequence_tuple *)

Module sequence_tuple.

(** [sizeof] and [alignof] of [tuple<Ts...>]. *)
Definition tuple_sizeof (Ts : list type_info) : Z := ty_sizeof (SeqTuple Ts).
Definition tuple_alignof (Ts : list type_info) : Z := ty_alignof (SeqTuple Ts).

(** Modelled from the spec: [tuple_element<idx, tuple<Ts...>>::type],
    ill-formed past the end. *)
Definition tuple_element (idx : N) (Ts : list type_info) : option type_info :=
  nth_N Ts idx.

(** Modelled from the spec: [tuple<Ts...>::size_v]. *)
Definition size_v {A : Type} (t : list A) : N := N.of_nat (length t).

(** Modelled from the spec: [get<idx>(t)] on a tuple value given by its
    elements (for a tuple of references, the element is the reference
    itself); ill-formed past the end. *)
Definition get {A : Type} (idx : N) (t : list A) : option A :=
  nth_N t idx.

(** Modelled from the spec: [&get<idx>(t)] for a tuple object of type
    [tuple<Ts...>] stored at address [t]. *)
Definition get_addr (idx : N) (Ts : list type_info) (t : Z) : option Z :=
  option_map (fun o => t + o) (nth_N (member_offsets Ts) idx).

End sequence_tuple.

(** ** The abstract machine: memory, stack, and instantiation failure *)

Record state : Type := {
  mem : Z -> byte;
  sp : Z               (* stack pointer; the stack grows downwards *)
}.

Definition M (A : Type) : Type := state -> option (A * state).

Definition ret {A} (a : A) : M A := fun st => Some (a, st).

Definition bind {A B} (c : M A) (k : A -> M B) : M B :=
  fun st => match c st with
            | Some (a, st') => k a st'
            | None => None
            end.

Definition lift {A} (o : option A) : M A :=
  fun st => match o with Some a => Some (a, st) | None => None end.

Definition ill_formed {A} : M A := fun _ => None.

Notation "x <- c ;; k" := (bind c (fun x => k))
  (at level 61, c at next level, right associativity).
Notation "c ;;; k" := (bind c (fun _ => k))
  (at level 61, right associativity).

Definition get_sp : M Z := fun st => Some (sp st, st).

Definition set_sp (p : Z) : M unit :=
  fun st => Some (tt, {| mem := mem st; sp := p |}).

Definition in_range (p n a : Z) : bool := (p <=? a) && (a <? p + n).

(** Storage for a local object of the given size and alignment is carved
    out below the stack pointer and value-initialised (zero bytes). *)
Definition local_object (size align : Z) : M Z :=
  fun st =>
    let p := align_down (sp st - size) align in
    Some (p, {| mem := fun a => if in_range p size a then x00 else mem st a;
                sp := p |}).

(** Reading and writing the object representation behind a reference. *)
Definition load_bytes (m : Z -> byte) (p n : Z) : list byte :=
  map (fun k => m (p + Z.of_nat k)) (seq 0 (Z.to_nat n)).

Definition store_bytes (m : Z -> byte) (p : Z) (bs : list byte) : Z -> byte :=
  fun a => if in_range p (Z.of_nat (length bs)) a
           then nth (Z.to_nat (a - p)) bs x00
           else m a.

Definition read (r : reference) (m : Z -> byte) : list byte :=
  load_bytes m (r_addr r) (ty_sizeof (r_type r)).

(** [r = v] for a trivially copyable [v]: ill-formed through a
    const-qualified reference. *)
Definition assign (r : reference) (v : list byte) : M unit :=
  fun st =>
    if is_const (r_cv r) then None
    else if negb (Z.of_nat (length v) =? ty_sizeof (r_type r)) then None
    else Some (tt, {| mem := store_bytes (mem st) (r_addr r) v; sp := sp st |}).

(** ** offset_based_getter.hpp *)

(** [template<std::size_t s, std::size_t a>
     struct internal_aligned_storage { alignas(a) char storage_[s]; };]
    a struct with the single member [storage_], an array of [s] chars whose
    alignment is raised to [a] ([alignas(0)] is ignored, the alignment is
    then that of [char]). Its size is [s] rounded up to a multiple of its
    alignment; for [s == 0], a zero-length array where the compiler accepts
    one, that is 0. *)
Definition internal_aligned_storage (s a : Z) : type_info :=
  Object "internal_aligned_storage" (align_up s (Z.max 1 a)) (Z.max 1 a).

(** [alignas(a)] is ignored when [a] is zero. Otherwise [a] has to be an
    alignment value, that is a power of two, and one that the implementation
    supports for the declaration; which ones it supports is
    implementation-defined ([supported]). *)
Section Alignas.

Variable supported : Z -> bool.



End Alignas.

(** [tuple_of_aligned_storage<sequence_tuple::tuple<Ts...>>::type] *)
Definition tuple_of_aligned_storage (Ts : list type_info) : list type_info :=
  map (fun T => internal_aligned_storage (ty_sizeof T) (ty_alignof T)) Ts.

Definition tuple_of_aligned_storage_t := tuple_of_aligned_storage.

Module offset_based_getter.

(** An instance of [offset_based_getter<U, S>], [S] being
    [sequence_tuple::tuple] of the types [getter_S]. *)
Record t : Type := {
  getter_U : struct_type;
  getter_S : list type_info
}.

Definition static_assert (cond : bool) (msg : string) : list string :=
  if cond then [] else [msg].

(** The diagnostics of instantiating the class template. *)
Definition diagnostics (U : struct_type) (S_ : list type_info) : list string :=
  static_assert (st_sizeof U =? sequence_tuple.tuple_sizeof S_)
    "Member sequence does not indicate correct size for struct type!"
  ++ static_assert (st_alignof U =? sequence_tuple.tuple_alignof S_)
    "Member sequence does not indicate correct alignment for struct type!"
  ++ static_assert (negb (st_const U))
    "const should be stripped from user-defined type when using offset_based_getter or overload resolution will be ambiguous later, this indicates an error within pfr"
  ++ static_assert (negb (st_reference U))
    "reference should be stripped from user-defined type when using offset_based_getter or overload resolution will be ambiguous later, this indicates an error within pfr"
  ++ static_assert (negb (st_volatile U))
    "volatile should be stripped from user-defined type when using offset_based_getter or overload resolution will be ambiguous later. this indicates an error within pfr".

(** [offset_based_getter<U, S>{}]: well-formed when no assertion fires. *)
Definition instantiate (U : struct_type) (S_ : list type_info) : option t :=
  match diagnostics U S_ with
  | [] => Some {| getter_U := U; getter_S := S_ |}
  | _ :: _ => None
  end.

(** [index_t<idx>] *)
Definition index_t (g : t) (idx : N) : option type_info :=
  sequence_tuple.tuple_element idx (getter_S g).

(** [offset<idx>()]: a local layout object is created, the address of its
    [idx]-th cell is taken, and the distance between the two addresses is
    returned; the local object dies with the call. *)
Definition offset (g : t) (idx : N) : M Z :=
  let layout_t := tuple_of_aligned_storage_t (getter_S g) in
  frame <- get_sp ;;
  layout <- local_object (sequence_tuple.tuple_sizeof layout_t)
                         (sequence_tuple.tuple_alignof layout_t) ;;
  member <- lift (sequence_tuple.get_addr idx layout_t layout) ;;
  set_sp frame ;;;
  ret (member - layout).

(** The four [get_pointer<idx>] overloads. *)
Definition get_pointer (g : t) (idx : N) (u : Z) : M pointer :=
  T <- lift (index_t g idx) ;;
  off <- offset g idx ;;
  ret {| p_addr := u + off; p_type := T; p_cv := cv_none |}.

Definition get_pointer_c (g : t) (idx : N) (u : Z) : M pointer :=
  T <- lift (index_t g idx) ;;
  off <- offset g idx ;;
  ret {| p_addr := u + off; p_type := T; p_cv := cv_const |}.

Definition get_pointer_v (g : t) (idx : N) (u : Z) : M pointer :=
  T <- lift (index_t g idx) ;;
  off <- offset g idx ;;
  ret {| p_addr := u + off; p_type := T; p_cv := cv_volatile |}.

Definition get_pointer_cv (g : t) (idx : N) (u : Z) : M pointer :=
  T <- lift (index_t g idx) ;;
  off <- offset g idx ;;
  ret {| p_addr := u + off; p_type := T; p_cv := cv_const_volatile |}.

(** The four public [get] overloads, each [return *get_pointer<idx>(&u);]. *)
Definition get_m (g : t) (u : Z) (idx : N) : M reference :=
  p <- get_pointer g idx u ;; ret (deref p).

Definition get_c (g : t) (u : Z) (idx : N) : M reference :=
  p <- get_pointer_c g idx u ;; ret (deref p).

Definition get_v (g : t) (u : Z) (idx : N) : M reference :=
  p <- get_pointer_v g idx u ;; ret (deref p).

Definition get_cv (g : t) (u : Z) (idx : N) : M reference :=
  p <- get_pointer_cv g idx u ;; ret (deref p).

(** Overload resolution of [g.get(u, size_t_<idx>{})] for an lvalue [u]:
    the overload whose parameter has the qualification of [u]. *)
Definition get (g : t) (u : lvalue) (idx : N) : M reference :=
  match lv_cv u with
  | cv_none => get_m g (lv_addr u) idx
  | cv_const => get_c g (lv_addr u) idx
  | cv_volatile => get_v g (lv_addr u) idx
  | cv_const_volatile => get_cv g (lv_addr u) idx
  end.

End offset_based_getter.

(** ** make_flat_tuple_of_references.hpp *)

(** The shape every getter has: [g.get(t, size_t_<idx>{})]. *)
Class Getter (G Tuple : Type) : Type :=
  getter_get : G -> Tuple -> N -> M reference.

#[export] Instance offset_based_Getter :
  Getter offset_based_getter.t lvalue := offset_based_getter.get.

(** A [sequence_tuple::tuple<Ts...>] object in memory. *)
Record tuple_lvalue : Type := {
  tl_types : list type_info;
  tl_addr : Z;
  tl_cv : cv_qual
}.

Inductive sequence_tuple_getter : Type := Sequence_tuple_getter.

(** [sequence_tuple_getter::get]: forwards to [sequence_tuple::get<idx>];
    the element has the qualification of the tuple. *)
#[export] Instance sequence_tuple_Getter :
  Getter sequence_tuple_getter tuple_lvalue :=
  fun _ t idx =>
    T <- lift (sequence_tuple.tuple_element idx (tl_types t)) ;;
    a <- lift (sequence_tuple.get_addr idx (tl_types t) (tl_addr t)) ;;
    ret {| r_addr := a; r_type := T; r_cv := tl_cv t |}.

(** Expansion of a pack: every element must be well-formed. *)
Fixpoint expand {A B : Type} (f : A -> option B) (l : list A) : option (list B) :=
  match l with
  | [] => Some []
  | x :: l' =>
      match f x, expand f l' with
      | Some y, Some ys => Some (y :: ys)
      | _, _ => None
      end
  end.

(** The functions of this header call each other: the builder calls
    [tie_as_tuple_with_references], whose overloads for a
    [sequence_tuple::tuple] argument call the builder on that tuple. This
    section has the functions that call [tie_as_tuple_with_references],
    with the function they call as [tie]. *)
Section Builder.

Variable tie : list reference -> M (list reference).

Definition my_tuple_cat_impl_at (t1 : list reference) (I1 : list N)
                                (t2 : list reference) (I2 : list N)
  : M (list reference) :=
  a <- lift (expand (fun i => sequence_tuple.get i t1) I1) ;;
  b <- lift (expand (fun i => sequence_tuple.get i t2) I2) ;;
  tie (a ++ b).

Definition my_tuple_cat_at (t1 t2 : list reference) : M (list reference) :=
  my_tuple_cat_impl_at
    t1 (make_index_sequence (sequence_tuple.size_v t1))
    t2 (make_index_sequence (sequence_tuple.size_v t2)).

Context {G Tuple : Type} {getter : Getter G Tuple}.

(** The three overloads of [make_flat_tuple_of_references]: for
    [size_t_<0>], for [size_t_<1>], and the generic one. *)
Equations? make_flat_tuple_of_references_at
    (t : Tuple) (g : G) (Begin Size : N) : M (list reference)
    by wf (N.to_nat Size) lt :=
  make_flat_tuple_of_references_at t g Begin Size with N.eq_dec Size 0 := {
    | left _ := ret [] ;
    | right _ with N.eq_dec Size 1 := {
      | left _ :=
          r <- getter_get g t Begin ;;
          tie [r] ;
      | right _ :=
          let next_size := (Size / 2)%N in
          a <- make_flat_tuple_of_references_at t g Begin next_size ;;
          b <- make_flat_tuple_of_references_at t g
                 (size_t_add Begin (Size / 2)) (Size - next_size)%N ;;
          my_tuple_cat_at a b } }.
Proof.
  - assert (Size / 2 < Size)%N by (apply N.div_lt; lia). lia.
  - assert (0 < Size / 2)%N by (apply N.div_str_pos; lia). lia.
Qed.

End Builder.

(** Overload resolution of [tie_as_tuple_with_references(args...)]. With a
    single argument that is an lvalue of a [sequence_tuple::tuple<T...>]
    type, the overload taking [tuple<T...>&] (for a const lvalue, the one
    taking [const tuple<T...>&]) is more specialised than the variadic one:
    it returns [make_flat_tuple_of_references(t, sequence_tuple_getter{},
    size_t_<0>{}, size_t_<size_v>{})]. Neither binds a volatile lvalue. In
    every other case the variadic overload returns the tuple
    [tuple<T&...>{args...}] of its arguments. [depth] bounds how deep the
    tuple types of the argument may nest. *)
Fixpoint tie_at (depth : nat) (args : list reference) : M (list reference) :=
  match args with
  | [r] =>
      match r_type r with
      | SeqTuple Ts =>
          if is_volatile (r_cv r) then ret args
          else
            match depth with
            | O => ill_formed
            | S depth' =>
                make_flat_tuple_of_references_at (tie_at depth')
                  {| tl_types := Ts; tl_addr := r_addr r; tl_cv := r_cv r |}
                  Sequence_tuple_getter 0 (sequence_tuple.size_v Ts)
            end
      | Object _ _ _ => ret args
      end
  | _ => ret args
  end.

(** The nesting of the type of a single argument: the depth that the
    overloads for tuples need for it. *)
Definition args_nesting (args : list reference) : nat :=
  match args with
  | [r] => nesting (r_type r)
  | _ => 0
  end.

Definition tie_as_tuple_with_references (args : list reference)
  : M (list reference) :=
  tie_at (args_nesting args) args.

Definition my_tuple_cat_impl := my_tuple_cat_impl_at tie_as_tuple_with_references.

Definition my_tuple_cat := my_tuple_cat_at tie_as_tuple_with_references.

Definition make_flat_tuple_of_references
    {G Tuple : Type} {getter : Getter G Tuple}
    (t : Tuple) (g : G) (Begin Size : N) : M (list reference) :=
  make_flat_tuple_of_references_at tie_as_tuple_with_references t g Begin Size.

(** ** What the builder flattens *)

(** [tie_as_tuple_with_references] replaces a reference to a
    [sequence_tuple::tuple] that is not volatile by references into it. *)
Definition flattens (r : reference) : bool :=
  match r_type r with
  | SeqTuple _ => negb (is_volatile (r_cv r))
  | Object _ _ _ => false
  end.

(** References that [tie_as_tuple_with_references] leaves as they are. *)
Definition inert (l : list reference) : Prop :=
  Forall (fun x => flattens x = false) l.

(** No member of a struct qualified [q] is flattened. *)
Definition no_flat_members (q : cv_qual) (Ts : list type_info) : bool :=
  forallb (fun T => negb (flattens {| r_addr := 0; r_type := T; r_cv := q |})) Ts.

(** The references to the elements of a tuple object. *)
Definition element_references (t : tuple_lvalue) : list reference :=
  map (fun m => {| r_addr := tl_addr t + snd m; r_type := fst m; r_cv := tl_cv t |})
      (combine (tl_types t) (member_offsets (tl_types t))).

(** The references an object of type [T] at address [a], qualified [q],
    is flattened to: itself, or for a tuple that is not volatile, what its
    elements are flattened to, in order. *)
Fixpoint leaves_of (T : type_info) (a : Z) (q : cv_qual) : list reference :=
  match T with
  | Object _ _ _ => [{| r_addr := a; r_type := T; r_cv := q |}]
  | SeqTuple Ts =>
      if is_volatile q then [{| r_addr := a; r_type := T; r_cv := q |}]
      else
        (fix elements (Ts : list type_info) (os : list Z) : list reference :=
           match Ts, os with
           | T' :: Ts', o :: os' => leaves_of T' (a + o) q ++ elements Ts' os'
           | _, _ => []
           end) Ts (member_offsets Ts)
  end.

Definition leaves (r : reference) : list reference :=
  leaves_of (r_type r) (r_addr r) (r_cv r).

(** ** Computations *)

(** [c] and [c'] behave alike in every state. *)
Definition equiv {A : Type} (c c' : M A) : Prop := forall st, c st = c' st.

Infix "=~=" := equiv (at level 70, no associativity).

(** Calling [f] on each element in turn, collecting the results. *)
Fixpoint traverse {A B : Type} (f : A -> M B) (l : list A) : M (list B) :=
  match l with
  | [] => ret []
  | x :: l' => y <- f x ;; ys <- traverse f l' ;; ret (y :: ys)
  end.

(** [yields lo c v]: in every state, [c] returns [v], restores the stack
    pointer, and leaves every byte outside [lo sp, sp) as it was. *)
Definition yields {A : Type} (lo : Z -> Z) (c : M A) (v : A) : Prop :=
  forall st, exists st',
    c st = Some (v, st') /\ sp st' = sp st /\
    forall x, ~ (lo (sp st) <= x < sp st) -> mem st' x = mem st x.

(** ** Records seen through the accessor *)

(** Where the layout object of [offset] is placed when the stack pointer
    is [s]. *)
Definition layout_addr (g : offset_based_getter.t) (s : Z) : Z :=
  let layout_t := tuple_of_aligned_storage_t (offset_based_getter.getter_S g) in
  align_down (s - sequence_tuple.tuple_sizeof layout_t)
             (sequence_tuple.tuple_alignof layout_t).

(** The state a call of [offset] leaves behind. *)
Definition after_offset (g : offset_based_getter.t) (st : state) : state :=
  {| mem := fun a =>
       if in_range (layout_addr g (sp st))
            (sequence_tuple.tuple_sizeof
               (tuple_of_aligned_storage_t (offset_based_getter.getter_S g))) a
       then x00 else mem st a;
     sp := sp st |}.

(** The reference to a member of type [T] at offset [o] of the struct
    at [u]. *)
Definition member_reference (u : lvalue) (T : type_info) (o : Z) : reference :=
  {| r_addr := lv_addr u + o; r_type := T; r_cv := lv_cv u |}.

(** [U] is a simple aggregate whose members, in declaration order, have the
    types [Ts] and sit at their natural offsets. *)
Definition simple_aggregate (U : struct_type) (Ts : list type_info) : Prop :=
  st_members U = combine Ts (member_offsets Ts).

(** The object representation of member [i] of the struct at [u]. *)
Definition member_value (U : struct_type) (u : lvalue) (i : N)
                        (m : Z -> byte) : option (list byte) :=
  match member_type U i, member_offset U i with
  | Some T, Some o => Some (load_bytes m (lv_addr u + o) (ty_sizeof T))
  | _, _ => None
  end.

(** The references to all members of the struct at [u], in order. *)
Definition member_references (U : struct_type) (u : lvalue) : list reference :=
  map (fun m => member_reference u (fst m) (snd m)) (st_members U).

(** The bytes [a] of the struct of type [U] at [u]. *)
Definition in_record (U : struct_type) (u : lvalue) (a : Z) : Prop :=
  lv_addr u <= a < lv_addr u + st_sizeof U.

(** The struct does not overlap the scratch space a call of [get] uses. *)
Definition clear_of_scratch (g : offset_based_getter.t) (U : struct_type)
                            (u : lvalue) (st : state) : Prop :=
  sp st <= lv_addr u \/ lv_addr u + st_sizeof U <= layout_addr g (sp st).

(** ** The instantiations of the builder *)

(** The instantiations of [make_flat_tuple_of_references] that the one for
    [size_t_<Begin>], [size_t_<Size>] leads to, as a tree: the overloads for
    [size_t_<0>] and for [size_t_<1>] instantiate the builder no further;
    the generic overload instantiates it for [Begin], [Size / 2] and for
    [Begin + Size / 2], [Size - Size / 2]. *)
Inductive instantiations : Type :=
| size_0
| size_1 (Begin : N)
| generic (first second : instantiations).

Equations? instantiations_of (Begin Size : N) : instantiations
    by wf (N.to_nat Size) lt :=
  instantiations_of Begin Size with N.eq_dec Size 0 := {
    | left _ := size_0 ;
    | right _ with N.eq_dec Size 1 := {
      | left _ := size_1 Begin ;
      | right _ :=
          let next_size := (Size / 2)%N in
          generic (instantiations_of Begin next_size)
                  (instantiations_of (size_t_add Begin (Size / 2))
                                     (Size - next_size)%N) } }.
Proof.
  - assert (Size / 2 < Size)%N by (apply N.div_lt; lia). lia.
  - assert (0 < Size / 2)%N by (apply N.div_str_pos; lia). lia.
Qed.

(** What the body of each instantiation computes from what the
    instantiations it calls compute: the bodies of the three overloads. *)
Section Run.

Variable tie : list reference -> M (list reference).
Context {G Tuple : Type} {getter : Getter G Tuple}.

Fixpoint run_instantiations (t : Tuple) (g : G) (c : instantiations)
  : M (list reference) :=
  match c with
  | size_0 => ret []
  | size_1 Begin =>
      r <- getter_get g t Begin ;;
      tie [r]
  | generic first second =>
      a <- run_instantiations t g first ;;
      b <- run_instantiations t g second ;;
      my_tuple_cat_at tie a b
  end.

End Run.

(** How deep the calls of the builder nest below the root of a tree of
    instantiations: the generic overload adds one level above its two
    calls; [element_depth Begin] is the depth to which the call of
    [tie_as_tuple_with_references] in the overload for [size_t_<1>] nests
    calls of the builder, for the element at [Begin]. *)
Section Depth.

Variable element_depth : N -> N.

Fixpoint nesting_depth (c : instantiations) : N :=
  match c with
  | size_0 => 0%N
  | size_1 Begin => element_depth Begin
  | generic first second =>
      (1 + N.max (nesting_depth first) (nesting_depth second))%N
  end.

End Depth.

(** The depth for an element, by its type. *)
Definition depth_by_type (f : type_info -> N) (Ts : list type_info)
                         (Begin : N) : N :=
  match nth_N Ts Begin with
  | Some T => f T
  | None => 0%N
  end.

(** [tie_as_tuple_with_references] on an element that is flattened calls
    the builder on it, with the number of its elements as [Size]: that is
    one level, and what that call nests ([depth] as for [tie_at]). *)
Fixpoint flatten_depth (depth : nat) (volatile : bool) (T : type_info) : N :=
  match T with
  | Object _ _ _ => 0%N
  | SeqTuple Ts =>
      if volatile then 0%N
      else
        match depth with
        | O => 0%N
        | S depth' =>
            (1 + nesting_depth
                   (depth_by_type (flatten_depth depth' volatile) Ts)
                   (instantiations_of 0 (sequence_tuple.size_v Ts)))%N
        end
  end.

(** The depth to which [make_flat_tuple_of_references(t, g, size_t_<0>{},
    size_t_<Size>{})] nests calls of the builder below itself, for a
    container qualified [q] whose getter returns references to the types
    [Ts]. *)
Definition instantiation_depth (Ts : list type_info) (q : cv_qual) (Size : N) : N :=
  nesting_depth
    (depth_by_type (fun T => flatten_depth (nesting T) (is_volatile q) T) Ts)
    (instantiations_of 0 Size).

(** ** Example records *)

Definition int_t : type_info := Object "int" 4 4.
Definition double_t : type_info := Object "double" 8 8.
Definition char_t : type_info := Object "char" 1 1.

(** [struct A { int x; double y; char z; };] *)
Definition A_members : list type_info := [int_t; double_t; char_t].
Definition A : struct_type := aggregate A_members.
Definition A_getter : offset_based_getter.t :=
  {| offset_based_getter.getter_U := A;
     offset_based_getter.getter_S := A_members |}.

(** [struct B { sequence_tuple::tuple<char, char> p; int n; };] *)
Definition pair_t : type_info := SeqTuple [char_t; char_t].
Definition B_members : list type_info := [pair_t; int_t].
Definition B : struct_type := aggregate B_members.
Definition B_getter : offset_based_getter.t :=
  {| offset_based_getter.getter_U := B;
     offset_based_getter.getter_S := B_members |}.

(** An object at address 4096, and a machine whose stack pointer is just
    below it. *)
Definition object_at_4096 (q : cv_qual) : lvalue :=
  {| lv_addr := 4096; lv_cv := q |}.
Definition example_state : state := {| mem := fun _ => x2a; sp := 4096 |}.

(** ** The flattened tuple, from the types *)

(** The references to objects of the types [Ts] laid out one after the
    other from offset [cur] of the object at [a], qualified [q]. *)
Definition references_from (a : Z) (q : cv_qual) (cur : Z)
                           (Ts : list type_info) : list reference :=
  map (fun m => {| r_addr := a + snd m; r_type := fst m; r_cv := q |})
      (combine Ts (layout_from cur (map ty_shape Ts))).

(** How many references an object of type [T] is flattened to. *)
Fixpoint leaf_count (volatile : bool) (T : type_info) : nat :=
  match T with
  | Object _ _ _ => 1
  | SeqTuple Ts =>
      if volatile then 1%nat
      else fold_right (fun T' n => (leaf_count volatile T' + n)%nat) 0%nat Ts
  end.

Definition leaf_counts (volatile : bool) (Ts : list type_info) : nat :=
  fold_right (fun T n => (leaf_count volatile T + n)%nat) 0%nat Ts.

(** The references [l] designate objects of positive size that follow each
    other in memory, without overlap, between the addresses [lo] and
    [hi]. *)
Fixpoint laid_out (lo hi : Z) (l : list reference) : Prop :=
  match l with
  | [] => lo <= hi
  | r :: l' =>
      lo <= r_addr r /\ 0 < ty_sizeof (r_type r) /\
      laid_out (r_addr r + ty_sizeof (r_type r)) hi l'
  end.

(** The struct at [u] seen as an object of type [S]. *)
Definition as_tuple (Ts : list type_info) (u : lvalue) : reference :=
  {| r_addr := lv_addr u; r_type := SeqTuple Ts; r_cv := lv_cv u |}.

Definition as_tuple_lvalue (Ts : list type_info) (u : lvalue) : tuple_lvalue :=
  {| tl_types := Ts; tl_addr := lv_addr u; tl_cv := lv_cv u |}.

(** * Properties *)

(** ** Indexing *)

Lemma nth_N_nth_error {A : Type} (l : list A) (i : N) :
  nth_N l i = nth_error l (N.to_nat i).
Proof.
  revert i; induction l as [|x l IH]; intros i; simpl.
  - now destruct (N.to_nat i).
  - destruct (N.eqb_spec i 0) as [->|Hi]; [reflexivity|].
    rewrite IH, N2Nat.inj_pred.
    destruct (N.to_nat i) eqn:E; [lia|reflexivity].
Qed.

Lemma nth_N_Some {A : Type} (l : list A) (i : N) :
  (i < N.of_nat (length l))%N -> exists x, nth_N l i = Some x.
Proof.
  intros Hi. rewrite nth_N_nth_error.
  destruct (nth_error l (N.to_nat i)) eqn:E; [eauto|].
  apply nth_error_None in E. lia.
Qed.

Lemma nth_N_None {A : Type} (l : list A) (i : N) :
  (N.of_nat (length l) <= i)%N -> nth_N l i = None.
Proof.
  intros Hi. rewrite nth_N_nth_error. apply nth_error_None. lia.
Qed.

Lemma nth_N_app_l {A : Type} (l1 l2 : list A) (k : N) :
  (k < N.of_nat (length l1))%N -> nth_N (l1 ++ l2) k = nth_N l1 k.
Proof.
  intros Hk. rewrite !nth_N_nth_error. apply nth_error_app1. lia.
Qed.

Lemma nth_N_app_r {A : Type} (l1 l2 : list A) (k : N) :
  nth_N (l1 ++ l2) (N.of_nat (length l1) + k) = nth_N l2 k.
Proof.
  rewrite !nth_N_nth_error, nth_error_app2 by lia.
  f_equal. lia.
Qed.

Lemma nth_N_map {A B : Type} (f : A -> B) (l : list A) (i : N) :
  nth_N (map f l) i = option_map f (nth_N l i).
Proof. rewrite !nth_N_nth_error. apply nth_error_map. Qed.

Lemma nth_N_combine {A B : Type} (l1 : list A) (l2 : list B) (i : N) x y :
  nth_N l1 i = Some x -> nth_N l2 i = Some y ->
  nth_N (combine l1 l2) i = Some (x, y).
Proof.
  rewrite !nth_N_nth_error. generalize (N.to_nat i) as n.
  revert l2; induction l1 as [|a l1 IH]; intros [|b l2] [|n]; simpl;
    try discriminate; try congruence.
  apply IH.
Qed.

Lemma make_index_sequence_length (n : N) :
  length (make_index_sequence n) = N.to_nat n.
Proof. unfold make_index_sequence. now rewrite length_map, length_seq. Qed.

Lemma nth_N_make_index_sequence (n k : N) :
  (k < n)%N -> nth_N (make_index_sequence n) k = Some k.
Proof.
  intros Hk. unfold make_index_sequence.
  rewrite nth_N_nth_error, nth_error_map, nth_error_seq.
  destruct (Nat.ltb_spec (N.to_nat k) (N.to_nat n)); [|lia].
  simpl. now rewrite N2Nat.id.
Qed.

Lemma seq_from (a n : nat) : seq a n = map (Nat.add a) (seq 0 n).
Proof.
  revert a; induction n as [|n IH]; intros a; simpl; [reflexivity|].
  f_equal; [lia|].
  rewrite (IH (S a)), (IH 1%nat), map_map.
  apply map_ext. intros b. lia.
Qed.

Lemma make_index_sequence_split (n h : N) :
  (h <= n)%N ->
  make_index_sequence n =
  make_index_sequence h ++ map (N.add h) (make_index_sequence (n - h)).
Proof.
  intros Hh. unfold make_index_sequence.
  replace (N.to_nat n) with (N.to_nat h + N.to_nat (n - h))%nat by lia.
  rewrite seq_app, map_app, map_map. f_equal.
  simpl. rewrite seq_from, map_map.
  apply map_ext. intros a. lia.
Qed.

(** ** Alignment arithmetic *)

Lemma align_up_ge (x a : Z) : 0 < a -> x <= align_up x a.
Proof.
  intros Ha. unfold align_up.
  pose proof (Z.div_mod (x + a - 1) a ltac:(lia)) as Hdm.
  pose proof (Z.mod_pos_bound (x + a - 1) a Ha) as Hr.
  lia.
Qed.

Lemma align_up_aligned (x a : Z) : 0 < a -> x mod a = 0 -> align_up x a = x.
Proof.
  intros Ha Hx. unfold align_up.
  pose proof (Z.div_mod x a ltac:(lia)) as Hdm. rewrite Hx in Hdm.
  replace (x + a - 1) with (x / a * a + (a - 1)) by lia.
  rewrite Z.div_add_l, (Z.div_small (a - 1) a) by lia. lia.
Qed.

Lemma align_up_0 (a : Z) : 0 < a -> align_up 0 a = 0.
Proof. intros Ha. apply align_up_aligned; [assumption|apply Z.mod_0_l; lia]. Qed.

Lemma align_up_mod (x a : Z) : 0 < a -> align_up x a mod a = 0.
Proof. intros Ha. unfold align_up. apply Z.mod_mul. lia. Qed.

Lemma align_down_le (x a : Z) : 0 < a -> align_down x a <= x.
Proof.
  intros Ha. unfold align_down.
  pose proof (Z.mul_div_le x a Ha). lia.
Qed.

Lemma in_range_spec (p n a : Z) :
  in_range p n a = true <-> p <= a < p + n.
Proof. unfold in_range. rewrite andb_true_iff, Z.leb_le, Z.ltb_lt. tauto. Qed.

(** ** Layout of aggregates *)

Lemma length_layout_from (cur : Z) (l : list shape) :
  length (layout_from cur l) = length l.
Proof.
  revert cur; induction l as [|[s a] l IH]; intros cur; simpl; auto.
Qed.

Lemma length_member_offsets (Ts : list type_info) :
  length (member_offsets Ts) = length Ts.
Proof. unfold member_offsets. now rewrite length_layout_from, length_map. Qed.

Lemma aggregate_alignof_pos (l : list shape) : 0 < aggregate_alignof l.
Proof. induction l as [|m l IH]; simpl; lia. Qed.

Lemma aggregate_sizeof_pos (l : list shape) : 0 < aggregate_sizeof l.
Proof. unfold aggregate_sizeof; lia. Qed.

Lemma shape_ok_spec (m : shape) :
  shape_ok m = true -> 0 < snd m /\ 0 < fst m /\ fst m mod snd m = 0.
Proof.
  unfold shape_ok. rewrite !andb_true_iff, !Z.ltb_lt, Z.eqb_eq. tauto.
Qed.

Lemma layout_end_ge (l : list shape) (cur : Z) :
  forallb shape_ok l = true -> cur <= layout_end cur l.
Proof.
  revert cur; induction l as [|[s a] l IH]; intros cur Hok; simpl; [lia|].
  simpl in Hok. apply andb_true_iff in Hok as [Hm Hok].
  apply shape_ok_spec in Hm as (Ha & Hs & _). simpl in Ha, Hs.
  pose proof (align_up_ge cur a Ha). specialize (IH (align_up cur a + s) Hok).
  lia.
Qed.

(** Members are laid out one after the other: a later member starts at or
    after the end of every earlier one, and none starts before [cur]. *)
Lemma layout_from_lower (l : list shape) (cur : Z) (i : N) (o : Z) :
  forallb shape_ok l = true ->
  nth_N (layout_from cur l) i = Some o -> cur <= o.
Proof.
  rewrite nth_N_nth_error. generalize (N.to_nat i) as n.
  revert cur; induction l as [|[s a] l IH]; intros cur n Hok Ho; simpl in *.
  - destruct n; discriminate.
  - apply andb_true_iff in Hok as [Hm Hok].
    apply shape_ok_spec in Hm as (Ha & Hs & _). simpl in Ha, Hs.
    pose proof (align_up_ge cur a Ha).
    destruct n as [|n]; simpl in Ho.
    + injection Ho as <-. assumption.
    + specialize (IH _ _ Hok Ho). lia.
Qed.

Lemma layout_from_disjoint (l : list shape) (cur : Z) (i j : N)
      (m : shape) (oi oj : Z) :
  forallb shape_ok l = true ->
  (i < j)%N ->
  nth_N l i = Some m ->
  nth_N (layout_from cur l) i = Some oi ->
  nth_N (layout_from cur l) j = Some oj ->
  oi + fst m <= oj.
Proof.
  rewrite !nth_N_nth_error. intros Hok Hij.
  assert (N.to_nat i < N.to_nat j)%nat as Hlt by lia. clear Hij.
  revert Hlt. generalize (N.to_nat i) as n, (N.to_nat j) as k.
  revert cur Hok; induction l as [|[s a] l IH]; intros cur Hok n k Hlt Hm Hi Hj.
  - destruct n; discriminate.
  - simpl in Hok. apply andb_true_iff in Hok as [Hm0 Hok].
    destruct k as [|k]; [lia|]. simpl in Hj.
    destruct n as [|n]; simpl in Hm, Hi.
    + injection Hm as <-. injection Hi as <-.
      rewrite <- (Nat2N.id k), <- nth_N_nth_error in Hj.
      apply (layout_from_lower _ _ _ _ Hok Hj).
    + eapply (IH _ Hok n k); eauto. lia.
Qed.

(** Every member ends within the aggregate. *)
Lemma layout_end_upper (l : list shape) (cur : Z) (i : N)
      (m : shape) (oi : Z) :
  forallb shape_ok l = true ->
  nth_N l i = Some m ->
  nth_N (layout_from cur l) i = Some oi ->
  oi + fst m <= layout_end cur l.
Proof.
  rewrite !nth_N_nth_error. generalize (N.to_nat i) as n.
  revert cur; induction l as [|[s a] l IH]; intros cur n Hok Hm Hi.
  - destruct n; discriminate.
  - simpl in Hok. apply andb_true_iff in Hok as [Hm0 Hok].
    destruct n as [|n]; simpl in *.
    + injection Hm as <-. injection Hi as <-. now apply layout_end_ge.
    + eapply IH; eauto.
Qed.

(** An aggregate of members of good shape has a good shape. *)
Lemma aggregate_shape_ok (l : list shape) :
  forallb shape_ok l = true ->
  shape_ok (aggregate_sizeof l, aggregate_alignof l) = true.
Proof.
  intros Hok. pose proof (aggregate_alignof_pos l) as Ha.
  unfold shape_ok. cbn [fst snd].
  rewrite !andb_true_iff, !Z.ltb_lt, Z.eqb_eq.
  split; [split; [assumption|apply aggregate_sizeof_pos]|].
  unfold aggregate_sizeof.
  destruct l as [|[s a] l].
  - reflexivity.
  - assert (1 <= align_up (layout_end 0 ((s, a) :: l)) (aggregate_alignof ((s, a) :: l))).
    { pose proof (align_up_ge (layout_end 0 ((s, a) :: l)) _ Ha).
      simpl in Hok. apply andb_true_iff in Hok as [Hm Hok].
      apply shape_ok_spec in Hm as (Ha0 & Hs & _). simpl in Ha0, Hs.
      pose proof (layout_end_ge l (align_up 0 a + s) Hok).
      pose proof (align_up_ge 0 a Ha0).
      cbn [layout_end] in *.
      eapply Z.le_trans; [|exact H]. eapply Z.le_trans; [|exact H0]. lia. }
    rewrite Z.max_r by assumption. now apply align_up_mod.
Qed.

Lemma type_info_ind (P : type_info -> Prop) :
  (forall name size align, P (Object name size align)) ->
  (forall Ts, Forall P Ts -> P (SeqTuple Ts)) ->
  forall T, P T.
Proof.
  intros HO HT. fix IH 1. intros [name size align|Ts].
  - apply HO.
  - apply HT. induction Ts as [|T Ts IHl]; constructor; [apply IH|exact IHl].
Qed.

Lemma object_type_shape (T : type_info) :
  object_type T = true -> shape_ok (ty_shape T) = true.
Proof.
  induction T as [name size align|Ts IH] using type_info_ind; intros Hok.
  - exact Hok.
  - cbn [ty_shape]. apply aggregate_shape_ok.
    cbn [object_type] in Hok. apply andb_true_iff in Hok as [Hok _].
    induction Ts as [|T Ts IHl]; [reflexivity|].
    simpl in Hok. apply andb_true_iff in Hok as [HT Hok].
    inversion IH as [|? ? HP HF]; subst.
    simpl. rewrite (HP HT). now apply IHl.
Qed.

Lemma object_types_shapes (Ts : list type_info) :
  object_types Ts = true -> forallb shape_ok (map ty_shape Ts) = true.
Proof.
  induction Ts as [|T Ts IH]; [reflexivity|]. simpl.
  intros Hok. apply andb_true_iff in Hok as [HT Hok].
  now rewrite (object_type_shape _ HT), (IH Hok).
Qed.

Lemma object_type_spec (T : type_info) :
  object_type T = true ->
  0 < ty_alignof T /\ 0 < ty_sizeof T /\ ty_sizeof T mod ty_alignof T = 0.
Proof. intros H. apply shape_ok_spec. now apply object_type_shape. Qed.

Lemma object_types_nth (Ts : list type_info) (i : N) (T : type_info) :
  object_types Ts = true -> nth_N Ts i = Some T -> object_type T = true.
Proof.
  intros Hok HT. rewrite nth_N_nth_error in HT. apply nth_error_In in HT.
  unfold object_types in Hok. rewrite forallb_forall in Hok. now apply Hok.
Qed.

Lemma member_in_aggregate (Ts : list type_info) (i : N)
      (Ti : type_info) (oi : Z) :
  object_types Ts = true ->
  nth_N Ts i = Some Ti ->
  nth_N (member_offsets Ts) i = Some oi ->
  0 <= oi /\ oi + ty_sizeof Ti <= aggregate_sizeof (map ty_shape Ts).
Proof.
  intros Hok HT Hi. apply object_types_shapes in Hok.
  assert (nth_N (map ty_shape Ts) i = Some (ty_shape Ti)) as Hm
    by now rewrite nth_N_map, HT.
  split.
  - apply (layout_from_lower _ _ _ _ Hok Hi).
  - pose proof (layout_end_upper _ _ _ _ _ Hok Hm Hi).
    pose proof (align_up_ge (layout_end 0 (map ty_shape Ts)) _
                  (aggregate_alignof_pos (map ty_shape Ts))).
    unfold aggregate_sizeof, ty_sizeof. lia.
Qed.

(** ** The layout object has the layout of the member sequence *)

Lemma internal_aligned_storage_shape (T : type_info) :
  object_type T = true ->
  ty_shape (internal_aligned_storage (ty_sizeof T) (ty_alignof T)) = ty_shape T.
Proof.
  intros HT. apply object_type_spec in HT as (Ha & Hs & Hm).
  unfold ty_sizeof, ty_alignof in *. destruct (ty_shape T) as [s a].
  cbn [fst snd] in *.
  unfold internal_aligned_storage. cbn [ty_shape].
  replace (Z.max 1 a) with a by lia.
  now rewrite align_up_aligned by auto.
Qed.

Lemma shapes_aligned_storage (Ts : list type_info) :
  object_types Ts = true ->
  map ty_shape (tuple_of_aligned_storage Ts) = map ty_shape Ts.
Proof.
  unfold tuple_of_aligned_storage.
  induction Ts as [|T Ts IH]; intros Hok; [reflexivity|].
  simpl in Hok. apply andb_true_iff in Hok as [HT Hok].
  cbn [map]. now rewrite internal_aligned_storage_shape, IH.
Qed.

Lemma member_offsets_aligned_storage (Ts : list type_info) :
  object_types Ts = true ->
  member_offsets (tuple_of_aligned_storage Ts) = member_offsets Ts.
Proof. intros Hok. unfold member_offsets. now rewrite shapes_aligned_storage. Qed.


(** ** Computations *)

Lemma equiv_refl {A : Type} (c : M A) : c =~= c.
Proof. intros st. reflexivity. Qed.

Lemma equiv_sym {A : Type} (c c' : M A) : c =~= c' -> c' =~= c.
Proof. intros H st. symmetry. apply H. Qed.

Lemma equiv_trans {A : Type} (c1 c2 c3 : M A) :
  c1 =~= c2 -> c2 =~= c3 -> c1 =~= c3.
Proof. intros H1 H2 st. now rewrite H1. Qed.

Lemma bind_equiv {A B : Type} (c c' : M A) (k k' : A -> M B) :
  c =~= c' -> (forall a, k a =~= k' a) -> bind c k =~= bind c' k'.
Proof.
  intros Hc Hk st. unfold bind. rewrite Hc.
  destruct (c' st) as [[a st']|]; [apply Hk|reflexivity].
Qed.

Lemma bind_ret_r {A : Type} (c : M A) : bind c ret =~= c.
Proof.
  intros st. unfold bind, ret. destruct (c st) as [[a st']|]; reflexivity.
Qed.

Lemma traverse_app {A B : Type} (f : A -> M B) (l1 l2 : list A) :
  traverse f (l1 ++ l2) =~=
  (a <- traverse f l1 ;; b <- traverse f l2 ;; ret (a ++ b)).
Proof.
  induction l1 as [|x l1 IH]; intros st; simpl.
  - unfold bind, ret. destruct (traverse f l2 st) as [[b st']|]; reflexivity.
  - unfold equiv, bind, ret in *.
    destruct (f x st) as [[y st1]|]; [|reflexivity].
    rewrite IH.
    destruct (traverse f l1 st1) as [[a st2]|]; [|reflexivity].
    destruct (traverse f l2 st2) as [[b st3]|]; reflexivity.
Qed.

Lemma traverse_map {A B C : Type} (f : B -> M C) (h : A -> B) (l : list A) :
  traverse f (map h l) =~= traverse (fun x => f (h x)) l.
Proof.
  induction l as [|x l IH]; simpl; [apply equiv_refl|].
  apply bind_equiv; [apply equiv_refl|]. intros y.
  apply bind_equiv; [exact IH|]. intros ys. apply equiv_refl.
Qed.

Lemma traverse_equiv {A B : Type} (f f' : A -> M B) (l : list A) :
  (forall x, f x =~= f' x) -> traverse f l =~= traverse f' l.
Proof.
  intros Hf. induction l as [|x l IH]; simpl; [apply equiv_refl|].
  apply bind_equiv; [apply Hf|]. intros y.
  apply bind_equiv; [exact IH|]. intros ys. apply equiv_refl.
Qed.

Lemma traverse_length {A B : Type} (f : A -> M B) (l : list A) st bs st' :
  traverse f l st = Some (bs, st') -> length bs = length l.
Proof.
  revert st bs; induction l as [|x l IH]; intros st bs; simpl.
  - unfold ret. intros [= <- _]. reflexivity.
  - unfold bind, ret. destruct (f x st) as [[y st1]|]; [|discriminate].
    destruct (traverse f l st1) as [[ys st2]|] eqn:E; [|discriminate].
    intros [= <- <-]. simpl. f_equal. eapply IH; eauto.
Qed.

(** Each result of a traversal was returned by the call on its element. *)
Lemma traverse_nth {A B : Type} (f : A -> M B) (l : list A) st bs st' k x :
  traverse f l st = Some (bs, st') ->
  nth_N l k = Some x ->
  exists b s1 s2, nth_N bs k = Some b /\ f x s1 = Some (b, s2).
Proof.
  intros Ht Hx. rewrite nth_N_nth_error in Hx.
  enough (exists b s1 s2,
             nth_error bs (N.to_nat k) = Some b /\ f x s1 = Some (b, s2)) as H.
  { destruct H as (b & s1 & s2 & H1 & H2). exists b, s1, s2.
    now rewrite nth_N_nth_error. }
  revert Ht Hx. generalize (N.to_nat k) as n.
  revert st bs; induction l as [|a l IH]; intros st bs n; simpl.
  - destruct n; discriminate.
  - unfold bind, ret. destruct (f a st) as [[y st1]|] eqn:Ea; [|discriminate].
    destruct (traverse f l st1) as [[ys st2]|] eqn:E; [|discriminate].
    intros [= <- <-]. destruct n as [|n]; simpl.
    + intros [= <-]. eauto.
    + intros Hx. eapply IH; eauto.
Qed.

(** What holds of everything the calls return holds of all results. *)
Lemma traverse_Forall {A B : Type} (f : A -> M B) (Q : B -> Prop)
      (l : list A) st bs st' :
  (forall x, In x l -> forall s b s', f x s = Some (b, s') -> Q b) ->
  traverse f l st = Some (bs, st') -> Forall Q bs.
Proof.
  revert st bs; induction l as [|a l IH]; intros st bs HQ; simpl.
  - unfold ret. intros [= <- _]. constructor.
  - unfold bind, ret. destruct (f a st) as [[y st1]|] eqn:Ea; [|discriminate].
    destruct (traverse f l st1) as [[ys st2]|] eqn:E; [|discriminate].
    intros [= <- <-]. constructor.
    + eapply HQ; [now left|exact Ea].
    + eapply IH; [|exact E]. intros x Hx. apply HQ. now right.
Qed.

(** A traversal succeeds when every call succeeds in every state. *)
Lemma traverse_total {A B : Type} (f : A -> M B) (l : list A) :
  (forall x, In x l -> forall st, exists b st', f x st = Some (b, st')) ->
  forall st, exists bs st', traverse f l st = Some (bs, st').
Proof.
  induction l as [|a l IH]; intros Hf st; simpl.
  - unfold ret; eauto.
  - destruct (Hf a (or_introl eq_refl) st) as (b & st1 & Hb).
    destruct (IH (fun x Hx => Hf x (or_intror Hx)) st1) as (bs & st2 & Hbs).
    unfold bind, ret. rewrite Hb, Hbs. eauto.
Qed.

(** ** Calls that only use scratch space below the stack pointer *)

Lemma yields_ret {A : Type} lo (v : A) : yields lo (ret v) v.
Proof. intros st. exists st. auto. Qed.

Lemma yields_bind {A B : Type} lo (c : M A) (k : A -> M B) a b :
  yields lo c a -> yields lo (k a) b -> yields lo (bind c k) b.
Proof.
  intros Hc Hk st.
  destruct (Hc st) as (st1 & E1 & Hsp1 & Hm1).
  destruct (Hk st1) as (st2 & E2 & Hsp2 & Hm2).
  exists st2. unfold bind. rewrite E1. repeat split.
  - assumption.
  - congruence.
  - intros x Hx. rewrite Hm2, Hm1; auto. now rewrite Hsp1.
Qed.

Lemma yields_equiv {A : Type} lo (c c' : M A) v :
  c =~= c' -> yields lo c' v -> yields lo c v.
Proof.
  intros He Hc st. destruct (Hc st) as (st' & E & H). exists st'.
  now rewrite He.
Qed.

Lemma yields_traverse {A B : Type} lo (f : A -> M B) (h : A -> B) (l : list A) :
  (forall x, In x l -> yields lo (f x) (h x)) ->
  yields lo (traverse f l) (map h l).
Proof.
  induction l as [|x l IH]; intros Hf; simpl.
  - apply yields_ret.
  - eapply yields_bind; [apply Hf; now left|].
    eapply yields_bind; [apply IH; intros; apply Hf; now right|].
    apply yields_ret.
Qed.

(** ** Index arithmetic *)

Lemma size_t_add_small (a b : N) :
  (a + b < size_t_modulus)%N -> size_t_add a b = (a + b)%N.
Proof. intros H. unfold size_t_add. now apply N.mod_small. Qed.

Lemma size_t_add_assoc (a b c : N) :
  size_t_add (size_t_add a b) c = size_t_add a (b + c).
Proof.
  unfold size_t_add.
  rewrite N.Div0.add_mod_idemp_l. f_equal. lia.
Qed.

Lemma size_t_add_lt (a b : N) : (size_t_add a b < size_t_modulus)%N.
Proof. apply N.mod_upper_bound. discriminate. Qed.

Lemma half_lt (Size : N) : (1 < Size)%N -> (Size / 2 < Size)%N.
Proof. intros H. apply N.div_lt; lia. Qed.

Lemma half_pos (Size : N) : (1 < Size)%N -> (0 < Size / 2)%N.
Proof. intros H. apply N.div_str_pos; lia. Qed.

Lemma half_bounds (n : N) : (2 * (n / 2) <= n <= 2 * (n / 2) + 1)%N.
Proof.
  pose proof (N.div_mod' n 2) as Hdm.
  pose proof (N.mod_upper_bound n 2 ltac:(lia)) as Hr.
  generalize dependent (n / 2)%N. generalize dependent (n mod 2)%N.
  intros. lia.
Qed.

Lemma half_odd (n : N) : N.odd n = true -> (n = 2 * (n / 2) + 1)%N.
Proof.
  intros Ho. pose proof (N.div_mod' n 2) as Hdm.
  rewrite <- N.bit0_mod, N.bit0_odd, Ho in Hdm. exact Hdm.
Qed.

Lemma half_even (n : N) : N.even n = true -> (n = 2 * (n / 2))%N.
Proof.
  intros He. pose proof (N.div_mod' n 2) as Hdm.
  rewrite <- N.bit0_mod, N.bit0_odd, <- N.negb_even, He in Hdm.
  cbn [negb N.b2n] in Hdm. now rewrite N.add_0_r in Hdm.
Qed.

Lemma in_make_index_sequence (n k : N) :
  In k (make_index_sequence n) -> (k < n)%N.
Proof.
  intros Hk. apply in_map_iff in Hk as (m & <- & Hm).
  apply in_seq in Hm. lia.
Qed.

(** ** Concatenation and the variadic overload *)

Lemma expand_map_Some {A B : Type} (f : A -> option B) (l : list A) (bs : list B) :
  map f l = map Some bs -> expand f l = Some bs.
Proof.
  revert bs; induction l as [|x l IH]; intros [|b bs]; simpl;
    try discriminate; [reflexivity|].
  intros [= Hx Hl]. now rewrite Hx, (IH _ Hl).
Qed.

(** Reading a tuple at the indices [0 .. size_v - 1] reads all of it. *)
Lemma expand_get_all {A : Type} (t : list A) :
  expand (fun i => sequence_tuple.get i t)
         (make_index_sequence (sequence_tuple.size_v t)) = Some t.
Proof.
  apply expand_map_Some.
  unfold make_index_sequence, sequence_tuple.size_v, sequence_tuple.get.
  rewrite Nat2N.id, map_map.
  apply nth_error_ext. intros n.
  rewrite !nth_error_map, nth_error_seq.
  destruct (Nat.ltb_spec n (length t)) as [Hn|Hn]; simpl.
  - rewrite nth_N_nth_error, Nat2N.id.
    destruct (nth_error t n) eqn:E; [reflexivity|].
    apply nth_error_None in E. lia.
  - apply nth_error_None in Hn. now rewrite Hn.
Qed.

(** [my_tuple_cat(t1, t2)] is [tie_as_tuple_with_references] of the entries
    of [t1] followed by those of [t2]. *)
Lemma my_tuple_cat_at_tie (tie : list reference -> M (list reference))
      (t1 t2 : list reference) :
  my_tuple_cat_at tie t1 t2 = tie (t1 ++ t2).
Proof.
  unfold my_tuple_cat_at, my_tuple_cat_impl_at.
  rewrite !expand_get_all. reflexivity.
Qed.

(** The variadic overload is the one chosen unless there is a single
    argument and it is flattened. *)
Lemma tie_at_inert (depth : nat) (l : list reference) :
  inert l -> tie_at depth l = ret l.
Proof.
  intros Hl. destruct l as [|r [|r' l]]; try (destruct depth; reflexivity).
  unfold inert in Hl. inversion Hl as [|? ? Hr Hrest]; subst.
  unfold flattens in Hr.
  destruct depth; cbn [tie_at]; (destruct (r_type r); [reflexivity|]);
    (destruct (is_volatile (r_cv r)); [reflexivity|discriminate]).
Qed.

Lemma tie_at_not_single (depth : nat) (l : list reference) :
  length l <> 1%nat -> tie_at depth l = ret l.
Proof.
  intros Hl. destruct l as [|r [|r' l]]; try (destruct depth; reflexivity).
  simpl in Hl. congruence.
Qed.

(** ** The builder *)

Section MakeFlat.

Context {G Tuple : Type} {getter : Getter G Tuple}.
Variable tie : list reference -> M (list reference).
Variables (t : Tuple) (g : G).

(** The three overloads, as equations. *)
Lemma make_flat_at_0 (Begin : N) :
  make_flat_tuple_of_references_at tie t g Begin 0 = ret [].
Proof. now rewrite make_flat_tuple_of_references_at_equation_1. Qed.

Lemma make_flat_at_1 (Begin : N) :
  make_flat_tuple_of_references_at tie t g Begin 1 =
  (r <- getter_get g t Begin ;; tie [r]).
Proof. now rewrite make_flat_tuple_of_references_at_equation_1. Qed.

Lemma make_flat_at_split (Begin Size : N) :
  (1 < Size)%N ->
  make_flat_tuple_of_references_at tie t g Begin Size =
  (a <- make_flat_tuple_of_references_at tie t g Begin (Size / 2) ;;
   b <- make_flat_tuple_of_references_at tie t g
          (size_t_add Begin (Size / 2)) (Size - Size / 2) ;;
   my_tuple_cat_at tie a b).
Proof.
  intros HS.
  rewrite (make_flat_tuple_of_references_at_equation_1 tie t g Begin Size).
  destruct (N.eq_dec Size 0) as [->|H0]; [lia|]. cbn.
  destruct (N.eq_dec Size 1) as [->|H1]; [lia|]. reflexivity.
Qed.

(** What the builder returns, given what [tie] does with one reference the
    getter returns ([F]), and that it leaves alone what it has produced. *)
Variable F : reference -> list reference.
Variable P : reference -> Prop.
Hypothesis Hsingle : forall r, P r -> tie [r] =~= ret (F r).
Hypothesis HF : forall r, P r -> inert (F r).
Hypothesis Hinert : forall l, inert l -> tie l =~= ret l.

Lemma inert_flat_map (rs : list reference) :
  Forall P rs -> inert (flat_map F rs).
Proof.
  induction 1 as [|r rs Hr Hrs IH]; simpl; [constructor|].
  apply Forall_app. split; [now apply HF|exact IH].
Qed.

(** The builder calls the getter at [Begin], [Begin + 1], ... in this
    order, once each, and returns what [tie] makes of each reference, in
    this order. *)
Lemma make_flat_at_traverse (Size : N) :
  forall Begin,
  (Begin < size_t_modulus)%N ->
  (forall k, (k < Size)%N -> forall st r st',
     getter_get g t (size_t_add Begin k) st = Some (r, st') -> P r) ->
  make_flat_tuple_of_references_at tie t g Begin Size =~=
  (rs <- traverse (fun k => getter_get g t (size_t_add Begin k))
                  (make_index_sequence Size) ;;
   ret (flat_map F rs)).
Proof.
  induction Size as [Size IH] using (well_founded_induction N.lt_wf_0).
  intros Begin HB HP.
  destruct (N.eq_dec Size 0) as [->|H0].
  { rewrite make_flat_at_0. apply equiv_refl. }
  destruct (N.eq_dec Size 1) as [->|H1].
  { rewrite make_flat_at_1. intros st.
    change (make_index_sequence 1) with [0%N]. cbn [traverse].
    specialize (HP 0%N ltac:(lia)).
    rewrite size_t_add_small in * by lia. rewrite N.add_0_r in *.
    unfold bind, ret.
    destruct (getter_get g t Begin st) as [[r st']|] eqn:E; [|reflexivity].
    rewrite (Hsingle r (HP _ _ _ E)). cbn [flat_map].
    now rewrite app_nil_r. }
  assert (1 < Size)%N as HS by lia.
  pose proof (half_lt _ HS) as Hlt. pose proof (half_pos _ HS) as Hpos.
  rewrite make_flat_at_split by assumption.
  set (h := (Size / 2)%N) in *.
  set (f := fun k => getter_get g t (size_t_add Begin k)).
  assert (forall k, (k < Size)%N -> forall st r st',
             f k st = Some (r, st') -> P r) as HPf by exact HP.
  pose proof (IH h Hlt Begin HB (fun k Hk => HP k ltac:(lia))) as IHl.
  change (fun k : N => getter_get g t (size_t_add Begin k)) with f in IHl.
  assert (make_flat_tuple_of_references_at tie t g (size_t_add Begin h) (Size - h)
          =~= (rs <- traverse (fun k => f (h + k)%N) (make_index_sequence (Size - h)) ;;
               ret (flat_map F rs))) as IHr.
  { eapply equiv_trans.
    - apply IH; [lia|apply size_t_add_lt|].
      intros k Hk st r st'. rewrite size_t_add_assoc. apply HP. lia.
    - apply bind_equiv; [|intros; apply equiv_refl].
      apply traverse_equiv. intros k st. unfold f.
      now rewrite size_t_add_assoc. }
  intros st.
  assert ((rs <- traverse f (make_index_sequence Size) ;; ret (flat_map F rs)) st
          = (a <- traverse f (make_index_sequence h) ;;
             b <- traverse (fun k => f (h + k)%N) (make_index_sequence (Size - h)) ;;
             ret (flat_map F (a ++ b))) st) as ->.
  { rewrite (make_index_sequence_split Size h) by lia.
    unfold bind at 1. rewrite traverse_app.
    unfold bind, ret.
    destruct (traverse f (make_index_sequence h) st) as [[a s1]|]; [|reflexivity].
    rewrite traverse_map.
    destruct (traverse _ (make_index_sequence (Size - h)) s1) as [[b s2]|];
      reflexivity. }
  unfold bind at 1. rewrite IHl. unfold bind at 1 3.
  destruct (traverse f (make_index_sequence h) st) as [[rsA s1]|] eqn:EA;
    [|reflexivity].
  cbn [ret]. unfold bind at 1. rewrite IHr. unfold bind at 1 2.
  destruct (traverse _ (make_index_sequence (Size - h)) s1) as [[rsB s2]|] eqn:EB;
    [|reflexivity].
  cbn [ret]. rewrite my_tuple_cat_at_tie, flat_map_app.
  apply Hinert. apply Forall_app. split; apply inert_flat_map.
  - eapply traverse_Forall; [|exact EA].
    intros k Hk s r s' E. apply in_make_index_sequence in Hk.
    eapply (HPf k); [lia|exact E].
  - eapply traverse_Forall; [|exact EB].
    intros k Hk s r s' E. apply in_make_index_sequence in Hk.
    eapply (HPf (h + k)%N); [lia|exact E].
Qed.

End MakeFlat.

(** ** Flattening *)

Lemma leaves_flat (r : reference) : flattens r = false -> leaves r = [r].
Proof.
  destruct r as [a T q]. unfold flattens, leaves. cbn [r_type r_addr r_cv].
  destruct T as [name size align|Ts]; [reflexivity|].
  cbn [leaves_of]. destruct (is_volatile q); [reflexivity|discriminate].
Qed.

Lemma leaves_of_tuple (Ts : list type_info) (a : Z) (q : cv_qual) :
  is_volatile q = false ->
  leaves_of (SeqTuple Ts) a q
  = flat_map leaves
      (element_references {| tl_types := Ts; tl_addr := a; tl_cv := q |}).
Proof.
  intros Hq. cbn [leaves_of]. rewrite Hq.
  unfold element_references. cbn [tl_types tl_addr tl_cv].
  generalize (member_offsets Ts) as os.
  induction Ts as [|T Ts IH]; intros [|o os]; try reflexivity.
  cbn [combine map flat_map]. now rewrite IH.
Qed.

Lemma leaves_tuple (r : reference) (Ts : list type_info) :
  r_type r = SeqTuple Ts -> is_volatile (r_cv r) = false ->
  leaves r
  = flat_map leaves
      (element_references
         {| tl_types := Ts; tl_addr := r_addr r; tl_cv := r_cv r |}).
Proof.
  intros HT Hq. unfold leaves. rewrite HT. now apply leaves_of_tuple.
Qed.

(** What a reference is flattened to is not flattened any further. *)
Lemma leaves_of_inert (T : type_info) :
  forall a q, inert (leaves_of T a q).
Proof.
  induction T as [name size align|Ts IH] using type_info_ind; intros a q.
  - repeat constructor.
  - cbn [leaves_of]. destruct (is_volatile q) eqn:Hq.
    + constructor; [|constructor]. unfold flattens. cbn. now rewrite Hq.
    + generalize (member_offsets Ts) as os.
      induction IH as [|T Ts HT _ IHl]; intros [|o os]; try constructor.
      apply Forall_app. split; [apply HT|apply IHl].
Qed.

Lemma leaves_inert (r : reference) : inert (leaves r).
Proof. apply leaves_of_inert. Qed.

Lemma flat_map_singleton {A : Type} (l : list A) :
  flat_map (fun x => [x]) l = l.
Proof. induction l as [|x l IH]; simpl; congruence. Qed.

(** ** The getter of tuples *)

Lemma sequence_tuple_getter_get (t : tuple_lvalue) (idx : N) :
  getter_get Sequence_tuple_getter t idx
  =~= lift (nth_N (element_references t) idx).
Proof.
  intros st.
  unfold getter_get, sequence_tuple_Getter, sequence_tuple.tuple_element,
         sequence_tuple.get_addr, element_references, bind, lift, ret.
  rewrite nth_N_map.
  destruct (N.ltb_spec idx (N.of_nat (length (tl_types t)))) as [Hi|Hi].
  - destruct (nth_N_Some (tl_types t) idx Hi) as (T & HT).
    destruct (nth_N_Some (member_offsets (tl_types t)) idx) as (o & Ho).
    { now rewrite length_member_offsets. }
    rewrite HT, Ho, (nth_N_combine _ _ _ _ _ HT Ho). reflexivity.
  - rewrite (nth_N_None (tl_types t)) by assumption.
    rewrite (nth_N_None (combine _ _)); [reflexivity|].
    rewrite length_combine. lia.
Qed.

Lemma traverse_lift {A B : Type} (f : A -> option B) (l : list A) :
  traverse (fun x => lift (f x)) l =~= lift (expand f l).
Proof.
  induction l as [|x l IH]; intros st; simpl; [reflexivity|].
  unfold bind, lift, ret in *. destruct (f x); [|reflexivity].
  rewrite IH. destruct (expand f l); reflexivity.
Qed.

(** Getting all elements of a tuple, in order. *)
Lemma traverse_sequence_tuple_getter (t : tuple_lvalue) :
  (sequence_tuple.size_v (tl_types t) < size_t_modulus)%N ->
  traverse (fun k => getter_get Sequence_tuple_getter t (size_t_add 0 k))
           (make_index_sequence (sequence_tuple.size_v (tl_types t)))
  =~= ret (element_references t).
Proof.
  intros Hn.
  assert (sequence_tuple.size_v (tl_types t)
          = sequence_tuple.size_v (element_references t)) as Hlen.
  { unfold sequence_tuple.size_v, element_references.
    rewrite length_map, length_combine, length_member_offsets. lia. }
  assert (forall l, (forall k, In k l -> (k < sequence_tuple.size_v (tl_types t))%N) ->
            traverse (fun k => getter_get Sequence_tuple_getter t (size_t_add 0 k)) l
            =~= traverse (fun x => lift (sequence_tuple.get x (element_references t))) l)
    as Hl.
  { induction l as [|k l IH]; intros Hin; [apply equiv_refl|].
    cbn [traverse]. apply bind_equiv.
    - rewrite size_t_add_small by (specialize (Hin k (or_introl eq_refl)); lia).
      apply sequence_tuple_getter_get.
    - intros y. apply bind_equiv; [|intros; apply equiv_refl].
      apply IH. intros k' Hk'. apply Hin. now right. }
  eapply equiv_trans;
    [apply Hl; intros k Hk; now apply in_make_index_sequence|].
  eapply equiv_trans; [apply traverse_lift|].
  rewrite Hlen, expand_get_all. apply equiv_refl.
Qed.

Lemma element_references_type (t : tuple_lvalue) (r : reference) :
  In r (element_references t) -> In (r_type r) (tl_types t).
Proof.
  unfold element_references. intros Hin.
  apply in_map_iff in Hin as ([T o] & <- & Hin).
  apply in_combine_l in Hin. exact Hin.
Qed.

Lemma sequence_tuple_getter_type (t : tuple_lvalue) (idx : N) st r st' :
  getter_get Sequence_tuple_getter t idx st = Some (r, st') ->
  In (r_type r) (tl_types t).
Proof.
  rewrite sequence_tuple_getter_get. unfold lift.
  destruct (nth_N (element_references t) idx) as [r'|] eqn:E; [|discriminate].
  intros [= <- _]. rewrite nth_N_nth_error in E. apply nth_error_In in E.
  now apply element_references_type.
Qed.

Lemma nesting_element (Ts : list type_info) (T : type_info) :
  In T Ts -> (nesting T < nesting (SeqTuple Ts))%nat.
Proof.
  cbn [nesting]. induction Ts as [|T' Ts IH]; intros Hin; [contradiction|].
  cbn [fold_right]. destruct Hin as [->|Hin]; [lia|].
  specialize (IH Hin). lia.
Qed.

Lemma object_type_element (Ts : list type_info) (T : type_info) :
  object_type (SeqTuple Ts) = true -> In T Ts -> object_type T = true.
Proof.
  cbn [object_type]. intros Hok Hin. apply andb_true_iff in Hok as [Hok _].
  rewrite forallb_forall in Hok. now apply Hok.
Qed.

Lemma object_type_size_v (Ts : list type_info) :
  object_type (SeqTuple Ts) = true ->
  (sequence_tuple.size_v Ts < size_t_modulus)%N.
Proof.
  cbn [object_type]. intros Hok. apply andb_true_iff in Hok as [_ Hok].
  now apply N.ltb_lt in Hok.
Qed.

(** ** The overloads for tuples flatten *)

Lemma tie_at_tuple (depth : nat) (r : reference) (Ts : list type_info) :
  r_type r = SeqTuple Ts -> is_volatile (r_cv r) = false ->
  tie_at (S depth) [r]
  = make_flat_tuple_of_references_at (tie_at depth)
      {| tl_types := Ts; tl_addr := r_addr r; tl_cv := r_cv r |}
      Sequence_tuple_getter 0 (sequence_tuple.size_v Ts).
Proof. intros HT Hq. cbn [tie_at]. now rewrite HT, Hq. Qed.

Lemma tie_at_leaves (depth : nat) :
  forall r,
  (nesting (r_type r) <= depth)%nat ->
  object_type (r_type r) = true ->
  tie_at depth [r] =~= ret (leaves r).
Proof.
  induction depth as [|depth IH]; intros r Hn Hok.
  - destruct (flattens r) eqn:Hf.
    + unfold flattens in Hf. destruct (r_type r); [discriminate|].
      cbn [nesting] in Hn. lia.
    + rewrite leaves_flat by assumption.
      rewrite tie_at_inert by (repeat constructor; assumption).
      apply equiv_refl.
  - destruct (flattens r) eqn:Hf.
    + unfold flattens in Hf.
      destruct (r_type r) as [|Ts] eqn:HT; [discriminate|].
      apply negb_true_iff in Hf.
      rewrite (tie_at_tuple depth r Ts HT Hf), (leaves_tuple r Ts HT Hf).
      set (tl := {| tl_types := Ts; tl_addr := r_addr r; tl_cv := r_cv r |}).
      eapply equiv_trans.
      * apply (make_flat_at_traverse (tie_at depth) tl Sequence_tuple_getter
                 leaves
                 (fun r' => (nesting (r_type r') <= depth)%nat
                            /\ object_type (r_type r') = true)).
        -- intros r' [Hn' Hok']. now apply IH.
        -- intros r' _. apply leaves_inert.
        -- intros l Hl. rewrite tie_at_inert by assumption. apply equiv_refl.
        -- reflexivity.
        -- intros k Hk st r' st' E.
           apply sequence_tuple_getter_type in E. cbn [tl tl_types] in E.
           split.
           ++ pose proof (nesting_element Ts _ E). lia.
           ++ eapply object_type_element; eauto.
      * eapply equiv_trans.
        -- apply bind_equiv; [|intros; apply equiv_refl].
           apply (traverse_sequence_tuple_getter tl).
           now apply object_type_size_v.
        -- apply equiv_refl.
    + rewrite leaves_flat by assumption.
      rewrite tie_at_inert by (repeat constructor; assumption).
      apply equiv_refl.
Qed.

Lemma tie_inert (l : list reference) :
  inert l -> tie_as_tuple_with_references l = ret l.
Proof. apply tie_at_inert. Qed.

Lemma tie_not_single (l : list reference) :
  length l <> 1%nat -> tie_as_tuple_with_references l = ret l.
Proof. apply tie_at_not_single. Qed.

Lemma tie_flat (r : reference) :
  flattens r = false -> tie_as_tuple_with_references [r] = ret [r].
Proof. intros Hr. apply tie_inert. now repeat constructor. Qed.

(** [tie_as_tuple_with_references] of one reference flattens it. *)
Lemma tie_leaves (r : reference) :
  object_type (r_type r) = true ->
  tie_as_tuple_with_references [r] =~= ret (leaves r).
Proof. intros Hok. now apply tie_at_leaves. Qed.

Lemma my_tuple_cat_tie (t1 t2 : list reference) :
  my_tuple_cat t1 t2 = tie_as_tuple_with_references (t1 ++ t2).
Proof. apply my_tuple_cat_at_tie. Qed.

Section MakeFlatTop.

Context {G Tuple : Type} {getter : Getter G Tuple}.
Variables (t : Tuple) (g : G).

Lemma make_flat_0 (Begin : N) :
  make_flat_tuple_of_references t g Begin 0 = ret [].
Proof. apply make_flat_at_0. Qed.

Lemma make_flat_1 (Begin : N) :
  make_flat_tuple_of_references t g Begin 1 =
  (r <- getter_get g t Begin ;; tie_as_tuple_with_references [r]).
Proof. apply make_flat_at_1. Qed.

Lemma make_flat_split (Begin Size : N) :
  (1 < Size)%N ->
  make_flat_tuple_of_references t g Begin Size =
  (a <- make_flat_tuple_of_references t g Begin (Size / 2) ;;
   b <- make_flat_tuple_of_references t g
          (size_t_add Begin (Size / 2)) (Size - Size / 2) ;;
   my_tuple_cat a b).
Proof. apply make_flat_at_split. Qed.

(** What the builder returns when the getter returns references to objects
    of complete types: what these references are flattened to, in order. *)
Lemma make_flat_leaves (Begin Size : N) :
  (Begin < size_t_modulus)%N ->
  (forall k, (k < Size)%N -> forall st r st',
     getter_get g t (size_t_add Begin k) st = Some (r, st') ->
     object_type (r_type r) = true) ->
  make_flat_tuple_of_references t g Begin Size =~=
  (rs <- traverse (fun k => getter_get g t (size_t_add Begin k))
                  (make_index_sequence Size) ;;
   ret (flat_map leaves rs)).
Proof.
  intros HB HP.
  apply (make_flat_at_traverse tie_as_tuple_with_references t g leaves
           (fun r => object_type (r_type r) = true)); auto.
  - intros r Hr. now apply tie_leaves.
  - intros r _. apply leaves_inert.
  - intros l Hl. rewrite tie_inert by assumption. apply equiv_refl.
Qed.

(** What the builder returns when the getter returns no reference that is
    flattened: these references. *)
Lemma make_flat_traverse (Begin Size : N) :
  (Begin < size_t_modulus)%N ->
  (forall k, (k < Size)%N -> forall st r st',
     getter_get g t (size_t_add Begin k) st = Some (r, st') ->
     flattens r = false) ->
  make_flat_tuple_of_references t g Begin Size =~=
  traverse (fun k => getter_get g t (size_t_add Begin k))
           (make_index_sequence Size).
Proof.
  intros HB HP.
  eapply equiv_trans.
  - apply (make_flat_at_traverse tie_as_tuple_with_references t g
             (fun r => [r]) (fun r => flattens r = false)); auto.
    + intros r Hr. rewrite tie_flat by assumption. apply equiv_refl.
    + intros r Hr. now repeat constructor.
    + intros l Hl. rewrite tie_inert by assumption. apply equiv_refl.
  - eapply equiv_trans; [|apply bind_ret_r].
    apply bind_equiv; [apply equiv_refl|].
    intros rs. rewrite flat_map_singleton. apply equiv_refl.
Qed.

End MakeFlatTop.

(** The overloads of [tie_as_tuple_with_references] for a tuple return what
    the builder returns for the tuple. *)
Lemma tie_tuple (r : reference) (Ts : list type_info) :
  r_type r = SeqTuple Ts -> is_volatile (r_cv r) = false ->
  object_type (r_type r) = true ->
  tie_as_tuple_with_references [r] =~=
  make_flat_tuple_of_references
    {| tl_types := Ts; tl_addr := r_addr r; tl_cv := r_cv r |}
    Sequence_tuple_getter 0 (sequence_tuple.size_v Ts).
Proof.
  intros HT Hq Hok.
  set (tl := {| tl_types := Ts; tl_addr := r_addr r; tl_cv := r_cv r |}).
  eapply equiv_trans; [now apply tie_leaves|].
  apply equiv_sym. rewrite HT in Hok.
  eapply equiv_trans.
  - apply make_flat_leaves; [reflexivity|].
    intros k Hk st r' st' E. apply sequence_tuple_getter_type in E.
    eapply object_type_element; eauto.
  - rewrite (leaves_tuple r Ts HT Hq). fold tl.
    eapply equiv_trans.
    + apply bind_equiv; [|intros; apply equiv_refl].
      apply (traverse_sequence_tuple_getter tl).
      now apply object_type_size_v.
    + apply equiv_refl.
Qed.

(** ** The accessor *)

Section Accessor.

Import offset_based_getter.

Variable g : offset_based_getter.t.

Lemma layout_addr_below (s : Z) :
  layout_addr g s +
  sequence_tuple.tuple_sizeof (tuple_of_aligned_storage_t (getter_S g)) <= s.
Proof.
  unfold layout_addr; cbv zeta.
  set (Ts := tuple_of_aligned_storage_t (getter_S g)).
  pose proof (align_down_le (s - sequence_tuple.tuple_sizeof Ts)
                (sequence_tuple.tuple_alignof Ts)
                (aggregate_alignof_pos (map ty_shape Ts))).
  lia.
Qed.

(** [offset<idx>()] unfolded: the difference of the two addresses. *)
Lemma offset_run (idx : N) (st : state) :
  offset g idx st =
  match sequence_tuple.get_addr idx (tuple_of_aligned_storage_t (getter_S g))
          (layout_addr g (sp st)) with
  | Some member =>
      Some (member - layout_addr g (sp st), after_offset g st)
  | None => None
  end.
Proof.
  unfold offset, bind, get_sp, local_object, lift, set_sp, ret, layout_addr,
         after_offset.
  cbn.
  destruct (sequence_tuple.get_addr idx _ _); reflexivity.
Qed.

Lemma offset_value (idx : N) (st : state) :
  offset g idx st =
  option_map (fun o => (o, after_offset g st))
    (nth_N (member_offsets (tuple_of_aligned_storage_t (getter_S g))) idx).
Proof.
  rewrite offset_run. unfold sequence_tuple.get_addr.
  destruct (nth_N _ idx) as [o|]; [|reflexivity].
  cbn [option_map]. f_equal. f_equal. lia.
Qed.

Lemma after_offset_frame (st : state) (x : Z) :
  ~ (layout_addr g (sp st) <= x < sp st) ->
  mem (after_offset g st) x = mem st x.
Proof.
  intros Hx. unfold after_offset. cbn [mem].
  pose proof (layout_addr_below (sp st)).
  destruct (in_range _ _ x) eqn:E; [|reflexivity].
  apply in_range_spec in E. lia.
Qed.

Lemma offset_yields (idx : N) (o : Z) :
  object_types (getter_S g) = true ->
  nth_N (member_offsets (getter_S g)) idx = Some o ->
  yields (layout_addr g) (offset g idx) o.
Proof.
  intros Hwf Ho st. rewrite offset_value.
  unfold tuple_of_aligned_storage_t.
  rewrite member_offsets_aligned_storage, Ho by assumption. cbn [option_map].
  eexists. split; [reflexivity|]. split; [reflexivity|].
  apply after_offset_frame.
Qed.

(** Past the end of [S] the instantiation is ill-formed. *)
Lemma offset_ill_formed (idx : N) (st : state) :
  (N.of_nat (length (getter_S g)) <= idx)%N -> offset g idx st = None.
Proof.
  intros Hi. rewrite offset_value.
  rewrite nth_N_None; [reflexivity|].
  unfold tuple_of_aligned_storage_t, tuple_of_aligned_storage.
  now rewrite length_member_offsets, length_map.
Qed.

Lemma get_run (u : lvalue) (idx : N) (st : state) :
  get g u idx st =
  match index_t g idx, offset g idx st with
  | Some T, Some (off, st') =>
      Some ({| r_addr := lv_addr u + off; r_type := T; r_cv := lv_cv u |}, st')
  | _, _ => None
  end.
Proof.
  unfold get.
  destruct (lv_cv u);
    unfold get_m, get_c, get_v, get_cv,
           get_pointer, get_pointer_c, get_pointer_v, get_pointer_cv,
           bind, lift, ret, deref;
    (destruct (index_t g idx); [|reflexivity]);
    destruct (offset g idx st) as [[? ?]|]; reflexivity.
Qed.

Lemma get_total (u : lvalue) (idx : N) (st : state) :
  (idx < sequence_tuple.size_v (getter_S g))%N ->
  exists T off st',
    index_t g idx = Some T /\
    offset g idx st = Some (off, st') /\
    get g u idx st
      = Some ({| r_addr := lv_addr u + off; r_type := T; r_cv := lv_cv u |}, st').
Proof.
  intros Hi. rewrite get_run, offset_value.
  destruct (nth_N_Some (getter_S g) idx Hi) as (T & HT).
  destruct (nth_N_Some (member_offsets (tuple_of_aligned_storage_t (getter_S g))) idx)
    as (o & Ho).
  { unfold tuple_of_aligned_storage_t, tuple_of_aligned_storage.
    now rewrite length_member_offsets, length_map. }
  unfold index_t, sequence_tuple.tuple_element. rewrite HT, Ho.
  cbn [option_map]. eauto 7.
Qed.

(** The reference [get] returns has the type [index_t<idx>] and the
    qualification of the record. *)
Lemma get_type (u : lvalue) (idx : N) (st : state) r st' :
  get g u idx st = Some (r, st') ->
  nth_N (getter_S g) idx = Some (r_type r) /\ r_cv r = lv_cv u.
Proof.
  rewrite get_run. unfold index_t, sequence_tuple.tuple_element.
  destruct (nth_N (getter_S g) idx) as [T|]; [|discriminate].
  destruct (offset g idx st) as [[off s]|]; [|discriminate].
  intros [= <- _]. auto.
Qed.

Lemma get_yields (u : lvalue) (idx : N) (T : type_info) (o : Z) :
  object_types (getter_S g) = true ->
  nth_N (getter_S g) idx = Some T ->
  nth_N (member_offsets (getter_S g)) idx = Some o ->
  yields (layout_addr g) (get g u idx) (member_reference u T o).
Proof.
  intros Hwf HT Ho st.
  destruct (offset_yields idx o Hwf Ho st) as (st' & E & Hsp & Hm).
  exists st'. rewrite get_run, E.
  unfold index_t, sequence_tuple.tuple_element. rewrite HT. auto.
Qed.

End Accessor.

Lemma load_bytes_ext (m m' : Z -> byte) (p n : Z) :
  (forall a, p <= a < p + n -> m' a = m a) ->
  load_bytes m' p n = load_bytes m p n.
Proof.
  intros H. unfold load_bytes. apply map_ext_in.
  intros k Hk. apply in_seq in Hk. apply H. lia.
Qed.

Lemma store_bytes_outside (m : Z -> byte) (p : Z) (bs : list byte) (a : Z) :
  ~ (p <= a < p + Z.of_nat (length bs)) -> store_bytes m p bs a = m a.
Proof.
  intros Ha. unfold store_bytes.
  destruct (in_range p _ a) eqn:E; [|reflexivity].
  apply in_range_spec in E. contradiction.
Qed.

Lemma load_store_bytes (m : Z -> byte) (p : Z) (bs : list byte) :
  load_bytes (store_bytes m p bs) p (Z.of_nat (length bs)) = bs.
Proof.
  unfold load_bytes. rewrite Nat2Z.id.
  apply nth_error_ext. intros n.
  rewrite nth_error_map, nth_error_seq.
  destruct (Nat.ltb_spec n (length bs)) as [Hn|Hn]; simpl.
  - unfold store_bytes.
    assert (in_range p (Z.of_nat (length bs)) (p + Z.of_nat n) = true) as ->.
    { apply in_range_spec. lia. }
    replace (Z.to_nat (p + Z.of_nat n - p)) with n by lia.
    symmetry. now apply nth_error_nth'.
  - symmetry. now apply nth_error_None.
Qed.

(** ** The accessor on simple aggregates *)

Section AccessorOnAggregates.

Import offset_based_getter.

Variables (Ts : list type_info) (U : struct_type) (g : offset_based_getter.t).
Hypothesis Hwf : object_types Ts = true.
Hypothesis HU : simple_aggregate U Ts.
Hypothesis Hg : instantiate U Ts = Some g.

Lemma instantiate_getter : g = {| getter_U := U; getter_S := Ts |}.
Proof.
  unfold instantiate in Hg.
  destruct (diagnostics U Ts); [congruence|discriminate].
Qed.

Lemma instantiate_sizeof : st_sizeof U = aggregate_sizeof (map ty_shape Ts).
Proof.
  unfold instantiate, diagnostics, static_assert in Hg.
  destruct (Z.eqb_spec (st_sizeof U) (sequence_tuple.tuple_sizeof Ts));
    [assumption|discriminate].
Qed.

Lemma members_length : length (st_members U) = length Ts.
Proof. rewrite HU, length_combine, length_member_offsets. lia. Qed.

Lemma members_lookup (i : N) :
  (i < sequence_tuple.size_v Ts)%N ->
  exists T o, nth_N Ts i = Some T /\ nth_N (member_offsets Ts) i = Some o /\
              member_type U i = Some T /\ member_offset U i = Some o.
Proof.
  intros Hi.
  destruct (nth_N_Some Ts i Hi) as (T & HT).
  destruct (nth_N_Some (member_offsets Ts) i) as (o & Ho).
  { now rewrite length_member_offsets. }
  exists T, o. unfold member_type, member_offset. rewrite HU.
  now rewrite (nth_N_combine _ _ _ _ _ HT Ho).
Qed.

Lemma member_lookup_inv (i : N) (T : type_info) (o : Z) :
  member_type U i = Some T -> member_offset U i = Some o ->
  nth_N Ts i = Some T /\ nth_N (member_offsets Ts) i = Some o /\
  (i < sequence_tuple.size_v Ts)%N.
Proof.
  unfold member_type, member_offset. rewrite HU. intros HT Ho.
  destruct (N.ltb_spec i (sequence_tuple.size_v Ts)) as [Hi|Hi].
  - destruct (nth_N_Some Ts i Hi) as (T' & HT').
    destruct (nth_N_Some (member_offsets Ts) i) as (o' & Ho').
    { now rewrite length_member_offsets. }
    rewrite (nth_N_combine _ _ _ _ _ HT' Ho') in HT, Ho. simpl in HT, Ho.
    split; [congruence|split; [congruence|assumption]].
  - rewrite nth_N_None in HT; [discriminate|].
    unfold sequence_tuple.size_v in Hi. rewrite length_combine. lia.
Qed.

Lemma get_member (u : lvalue) (i : N) (T : type_info) (o : Z) :
  member_type U i = Some T -> member_offset U i = Some o ->
  yields (layout_addr g) (get g u i) (member_reference u T o).
Proof.
  intros HT Ho. destruct (member_lookup_inv _ _ _ HT Ho) as (HT' & Ho' & _).
  apply get_yields; rewrite instantiate_getter; assumption.
Qed.

Lemma nth_member_references (u : lvalue) (i : N) (T : type_info) (o : Z) :
  member_type U i = Some T -> member_offset U i = Some o ->
  nth_N (member_references U u) i = Some (member_reference u T o).
Proof.
  unfold member_type, member_offset, member_references.
  rewrite nth_N_map.
  destruct (nth_N (st_members U) i) as [[T1 o1]|]; simpl; congruence.
Qed.

Lemma nth_member_references_inv (u : lvalue) (i : N) r :
  nth_N (member_references U u) i = Some r ->
  exists T o, member_type U i = Some T /\ member_offset U i = Some o /\
              r = member_reference u T o.
Proof.
  unfold member_references, member_type, member_offset.
  rewrite nth_N_map.
  destruct (nth_N (st_members U) i) as [[T o]|]; [|discriminate].
  simpl. intros [= <-]. eauto.
Qed.

(** Calling [get] at every index, in order, yields the references to the
    members. *)
Lemma traverse_get_yields (u : lvalue) :
  (sequence_tuple.size_v Ts < size_t_modulus)%N ->
  yields (layout_addr g)
         (traverse (fun k => getter_get g u (size_t_add 0 k))
                   (make_index_sequence (sequence_tuple.size_v Ts)))
         (member_references U u).
Proof.
  intros Hn.
  set (h := fun k : N =>
              match nth_N (st_members U) k with
              | Some m => member_reference u (fst m) (snd m)
              | None => member_reference u (Object "" 0 0) 0
              end).
  replace (member_references U u)
    with (map h (make_index_sequence (sequence_tuple.size_v Ts))).
  - apply yields_traverse. intros k Hk.
    apply in_make_index_sequence in Hk.
    rewrite size_t_add_small by lia. rewrite N.add_0_l.
    destruct (members_lookup k Hk) as (T & o & HT & Ho & HT' & Ho').
    unfold h. unfold member_type, member_offset in HT', Ho'.
    destruct (nth_N (st_members U) k) as [[T1 o1]|]; [|discriminate].
    simpl in *. injection HT' as ->. injection Ho' as ->.
    apply get_yields; rewrite instantiate_getter; assumption.
  - unfold member_references, make_index_sequence, sequence_tuple.size_v.
    rewrite Nat2N.id, map_map.
    pose proof members_length as Hlen.
    apply nth_error_ext. intros n.
    rewrite !nth_error_map, nth_error_seq.
    destruct (Nat.ltb_spec n (length Ts)) as [Hlt|Hge]; simpl.
    + unfold h. rewrite nth_N_nth_error, Nat2N.id.
      destruct (nth_error (st_members U) n) eqn:E; [reflexivity|].
      apply nth_error_None in E. lia.
    + destruct (nth_error (st_members U) n) eqn:E; [|reflexivity].
      assert (nth_error (st_members U) n <> None) as E' by congruence.
      apply nth_error_Some in E'. lia.
Qed.

Lemma get_object_type (u : lvalue) (k : N) st r st' :
  getter_get g u k st = Some (r, st') -> object_type (r_type r) = true.
Proof.
  intros E. apply get_type in E as [HT _].
  rewrite instantiate_getter in HT. cbn [getter_S] in HT.
  eapply object_types_nth; eauto.
Qed.

(** Flattening the struct at [u] yields what the references to its members
    are flattened to. *)
Lemma flatten_leaves (u : lvalue) :
  (sequence_tuple.size_v Ts < size_t_modulus)%N ->
  yields (layout_addr g)
         (make_flat_tuple_of_references u g 0 (sequence_tuple.size_v Ts))
         (flat_map leaves (member_references U u)).
Proof.
  intros Hn.
  eapply yields_equiv.
  - apply make_flat_leaves; [reflexivity|].
    intros k Hk st r st'. apply get_object_type.
  - eapply yields_bind; [now apply traverse_get_yields|apply yields_ret].
Qed.

Lemma no_flat_members_references (u : lvalue) :
  no_flat_members (lv_cv u) Ts = true -> inert (member_references U u).
Proof.
  intros Hflat. unfold inert, member_references. rewrite HU.
  apply Forall_map. apply Forall_forall. intros [T o] Hin.
  apply in_combine_l in Hin.
  unfold no_flat_members in Hflat. rewrite forallb_forall in Hflat.
  specialize (Hflat T Hin). apply negb_true_iff in Hflat. exact Hflat.
Qed.

Lemma flat_map_leaves_inert (l : list reference) :
  inert l -> flat_map leaves l = l.
Proof.
  induction 1 as [|r l Hr Hl IH]; [reflexivity|].
  cbn [flat_map]. now rewrite leaves_flat, IH.
Qed.

(** When no member is flattened, flattening the struct at [u] yields the
    references to its members. *)
Lemma flatten_yields (u : lvalue) :
  (sequence_tuple.size_v Ts < size_t_modulus)%N ->
  no_flat_members (lv_cv u) Ts = true ->
  yields (layout_addr g)
         (make_flat_tuple_of_references u g 0 (sequence_tuple.size_v Ts))
         (member_references U u).
Proof.
  intros Hn Hflat.
  rewrite <- (flat_map_leaves_inert (member_references U u))
    by now apply no_flat_members_references.
  now apply flatten_leaves.
Qed.

(** A member lies inside the struct. *)
Lemma member_in_record (u : lvalue) (i : N) (T : type_info) (o a : Z) :
  member_type U i = Some T -> member_offset U i = Some o ->
  lv_addr u + o <= a < lv_addr u + o + ty_sizeof T -> in_record U u a.
Proof.
  intros HT Ho Ha. destruct (member_lookup_inv _ _ _ HT Ho) as (HT' & Ho' & _).
  destruct (member_in_aggregate _ _ _ _ Hwf HT' Ho').
  unfold in_record. rewrite instantiate_sizeof. lia.
Qed.

(** Distinct members occupy disjoint storage. *)
Lemma members_disjoint (i j : N) (Ti Tj : type_info) (oi oj : Z) :
  i <> j ->
  member_type U i = Some Ti -> member_offset U i = Some oi ->
  member_type U j = Some Tj -> member_offset U j = Some oj ->
  oi + ty_sizeof Ti <= oj \/ oj + ty_sizeof Tj <= oi.
Proof.
  intros Hij HTi Hoi HTj Hoj.
  destruct (member_lookup_inv _ _ _ HTi Hoi) as (HTi' & Hoi' & _).
  destruct (member_lookup_inv _ _ _ HTj Hoj) as (HTj' & Hoj' & _).
  pose proof (object_types_shapes _ Hwf) as Hok.
  assert (nth_N (map ty_shape Ts) i = Some (ty_shape Ti)) as Hmi
    by now rewrite nth_N_map, HTi'.
  assert (nth_N (map ty_shape Ts) j = Some (ty_shape Tj)) as Hmj
    by now rewrite nth_N_map, HTj'.
  destruct (N.lt_total i j) as [Hlt|[->|Hlt]]; [left|congruence|right].
  - eapply (layout_from_disjoint _ 0 i j); eauto.
  - eapply (layout_from_disjoint _ 0 j i); eauto.
Qed.

End AccessorOnAggregates.

(** ** The instantiations of the builder *)

Lemma instantiations_of_0 (Begin : N) : instantiations_of Begin 0 = size_0.
Proof. now rewrite instantiations_of_equation_1. Qed.

Lemma instantiations_of_1 (Begin : N) :
  instantiations_of Begin 1 = size_1 Begin.
Proof. now rewrite instantiations_of_equation_1. Qed.

Lemma instantiations_of_split (Begin Size : N) :
  (1 < Size)%N ->
  instantiations_of Begin Size
  = generic (instantiations_of Begin (Size / 2))
            (instantiations_of (size_t_add Begin (Size / 2)) (Size - Size / 2)).
Proof.
  intros HS. rewrite (instantiations_of_equation_1 Begin Size).
  destruct (N.eq_dec Size 0) as [->|H0]; [lia|]. cbn.
  destruct (N.eq_dec Size 1) as [->|H1]; [lia|]. reflexivity.
Qed.

(** The builder computes what the tree of its instantiations computes,
    whatever [tie] and the getter are. *)
Lemma make_flat_at_instantiations
      {G Tuple : Type} {getter : Getter G Tuple}
      (tie : list reference -> M (list reference)) (t : Tuple) (g : G)
      (Size : N) :
  forall Begin,
    make_flat_tuple_of_references_at tie t g Begin Size
    = run_instantiations tie t g (instantiations_of Begin Size).
Proof.
  induction Size as [Size IH] using (well_founded_induction N.lt_wf_0).
  intros Begin.
  destruct (N.eq_dec Size 0) as [->|H0].
  { now rewrite make_flat_at_0, instantiations_of_0. }
  destruct (N.eq_dec Size 1) as [->|H1].
  { now rewrite make_flat_at_1, instantiations_of_1. }
  assert (1 < Size)%N as HS by lia.
  pose proof (half_lt _ HS). pose proof (half_pos _ HS).
  rewrite make_flat_at_split, instantiations_of_split by assumption.
  cbn [run_instantiations].
  rewrite <- (IH (Size / 2)%N) by lia.
  rewrite <- (IH (Size - Size / 2)%N) by lia.
  reflexivity.
Qed.

Lemma log2_up_half (n : N) :
  (1 < n)%N -> N.log2_up n = (1 + N.log2_up (n - n / 2))%N.
Proof.
  intros Hn.
  pose proof (half_bounds n) as Hh.
  remember (n / 2)%N as q eqn:Eq. clear Eq.
  remember (n - q)%N as m eqn:Em.
  destruct (N.eq_dec m 1) as [E|E].
  - assert (n = 2%N) as -> by lia. rewrite E. reflexivity.
  - pose proof (N.log2_up_spec m ltac:(lia)) as [Hlo Hhi].
    assert (0 < N.log2_up m)%N as Hk by (apply N.log2_up_pos; lia).
    apply N.log2_up_unique; [lia|].
    replace (N.pred (1 + N.log2_up m)) with (N.log2_up m) by lia.
    replace (1 + N.log2_up m)%N with (N.succ (N.log2_up m)) by lia.
    rewrite N.pow_succ_r'.
    assert (2 ^ N.log2_up m = 2 * 2 ^ N.pred (N.log2_up m))%N as Hp.
    { rewrite <- N.pow_succ_r'. f_equal. lia. }
    lia.
Qed.

(** When no element costs anything, the depth is that of the halving. *)
Lemma nesting_depth_log2_up (ed : N -> N) (Size : N) :
  (forall k, ed k = 0%N) ->
  forall Begin,
    nesting_depth ed (instantiations_of Begin Size) = N.log2_up Size.
Proof.
  intros Hed.
  induction Size as [Size IH] using (well_founded_induction N.lt_wf_0).
  intros Begin.
  destruct (N.eq_dec Size 0) as [->|H0]; [now rewrite instantiations_of_0|].
  destruct (N.eq_dec Size 1) as [->|H1].
  { rewrite instantiations_of_1. cbn [nesting_depth]. apply Hed. }
  assert (1 < Size)%N as HS by lia.
  pose proof (half_lt _ HS). pose proof (half_pos _ HS).
  pose proof (half_bounds Size).
  rewrite instantiations_of_split by assumption. cbn [nesting_depth].
  rewrite !IH by lia.
  rewrite N.max_r by (apply N.log2_up_le_mono; lia).
  symmetry. now apply log2_up_half.
Qed.

Lemma flatten_depth_flat (depth : nat) (q : cv_qual) (T : type_info) :
  flattens {| r_addr := 0; r_type := T; r_cv := q |} = false ->
  flatten_depth depth (is_volatile q) T = 0%N.
Proof.
  unfold flattens. cbn [r_type r_cv].
  destruct T as [name size align|Ts]; [now destruct depth|].
  destruct (is_volatile q); [now destruct depth|discriminate].
Qed.

Lemma instantiation_depth_flat (Ts : list type_info) (q : cv_qual) (Size : N) :
  no_flat_members q Ts = true ->
  instantiation_depth Ts q Size = N.log2_up Size.
Proof.
  intros Hflat. unfold instantiation_depth.
  apply nesting_depth_log2_up. intros k. unfold depth_by_type.
  destruct (nth_N Ts k) as [T|] eqn:E; [|reflexivity].
  rewrite nth_N_nth_error in E. apply nth_error_In in E.
  apply flatten_depth_flat.
  unfold no_flat_members in Hflat. rewrite forallb_forall in Hflat.
  specialize (Hflat T E). now apply negb_true_iff in Hflat.
Qed.

(** * The accessor returns references to the members *)

(** C1, as the code has it: for a record [u] of a simple aggregate type [U]
    with member types [Ts], and an index [i] below the number of members,
    [get] returns the reference whose address is the address of the [i]-th
    member of [u] and whose type is the [i]-th member type; reading through
    it gives the member's value, and the call leaves every byte of the
    record as it was: nothing is copied, moved or constructed in the record.
    Entry [i] of the flattened tuple is this reference when no member of
    the record is flattened, that is when no member type is a
    [sequence_tuple::tuple], or the record is volatile. *)
Theorem get_aliases_member
    (Ts : list type_info) (U : struct_type) (g : offset_based_getter.t)
    (u : lvalue) (i : N) (st : state) :
  object_types Ts = true ->
  simple_aggregate U Ts ->
  offset_based_getter.instantiate U Ts = Some g ->
  (sequence_tuple.size_v Ts < size_t_modulus)%N ->
  (i < sequence_tuple.size_v Ts)%N ->
  clear_of_scratch g U u st ->
  exists T o r,
    member_type U i = Some T /\ member_offset U i = Some o /\
    r = {| r_addr := lv_addr u + o; r_type := T; r_cv := lv_cv u |} /\
    (exists st',
       offset_based_getter.get g u i st = Some (r, st') /\
       Some (read r (mem st')) = member_value U u i (mem st) /\
       (forall a, in_record U u a -> mem st' a = mem st a)) /\
    (no_flat_members (lv_cv u) Ts = true ->
     exists tup st',
       make_flat_tuple_of_references u g 0 (sequence_tuple.size_v Ts) st
         = Some (tup, st') /\
       sequence_tuple.get i tup = Some r /\
       Some (read r (mem st')) = member_value U u i (mem st) /\
       (forall a, in_record U u a -> mem st' a = mem st a)).
Proof.
  intros Hwf HU Hg Hn Hi Hclear.
  destruct (members_lookup Ts U HU i Hi) as (T & o & _ & _ & HT & Ho).
  exists T, o, (member_reference u T o).
  split; [assumption|]. split; [assumption|]. split; [reflexivity|].
  assert (forall st' : state,
             (forall x, ~ (layout_addr g (sp st) <= x < sp st) ->
                        mem st' x = mem st x) ->
             Some (read (member_reference u T o) (mem st'))
               = member_value U u i (mem st) /\
             (forall a, in_record U u a -> mem st' a = mem st a)) as Hframe.
  { intros st' Hm.
    assert (forall a, in_record U u a -> mem st' a = mem st a) as Hrec.
    { intros a Ha. apply Hm. unfold in_record in Ha.
      destruct Hclear; lia. }
    split; [|exact Hrec].
    unfold member_value, read. rewrite HT, Ho. f_equal.
    apply load_bytes_ext. intros a Ha. apply Hrec.
    eapply (member_in_record Ts U g); eauto. }
  split.
  - destruct (get_member Ts U g Hwf HU Hg u i T o HT Ho st) as (st' & E & _ & Hm).
    exists st'. split; [exact E|]. now apply Hframe.
  - intros Hflat.
    destruct (flatten_yields Ts U g Hwf HU Hg u Hn Hflat st) as (st' & E & _ & Hm).
    exists (member_references U u), st'. split; [exact E|].
    split; [now apply nth_member_references|]. now apply Hframe.
Qed.

Lemma get_aliases_member_witness :
  exists tup st',
    make_flat_tuple_of_references (object_at_4096 cv_none) A_getter 0 3
      example_state = Some (tup, st') /\
    sequence_tuple.get 1 tup
      = Some {| r_addr := 4104; r_type := double_t; r_cv := cv_none |}.
Proof.
  destruct (get_aliases_member A_members A A_getter (object_at_4096 cv_none) 1
              example_state)
    as (T & o & r & HT & Ho & -> & _ & Hflat).
  - reflexivity.
  - reflexivity.
  - reflexivity.
  - reflexivity.
  - reflexivity.
  - left. simpl. lia.
  - destruct (Hflat eq_refl) as (tup & st' & E & Hnth & _).
    exists tup, st'. split; [exact E|]. rewrite Hnth.
    injection HT as <-. injection Ho as <-. reflexivity.
Defined.

(** In [struct B { sequence_tuple::tuple<char, char> p; int n; }] member 1
    is the [int] at offset 4, and [get] returns the reference to it, but
    entry 1 of the flattened tuple is the reference to the second [char] of
    [p], at offset 1. *)
Lemma get_aliases_member_counterexample :
  ~ (exists r st' tup st'',
       offset_based_getter.get B_getter (object_at_4096 cv_none) 1
         example_state = Some (r, st') /\
       make_flat_tuple_of_references (object_at_4096 cv_none) B_getter 0 2
         example_state = Some (tup, st'') /\
       sequence_tuple.get 1 tup = Some r).
Proof.
  intros (r & st' & tup & st'' & Hget & Hflat & Hnth).
  vm_compute in Hget. vm_compute in Hflat.
  injection Hget as <- _. injection Hflat as <- _.
  vm_compute in Hnth. discriminate.
Qed.

(** C3: [offset<idx>()] places a layout object, takes the address of its
    [idx]-th cell, and returns the distance in bytes from the address of the
    layout object; this distance is the offset of the [idx]-th member in
    [U]. *)
Theorem offset_is_member_offset
    (Ts : list type_info) (U : struct_type) (g : offset_based_getter.t)
    (idx : N) (st : state) :
  object_types Ts = true ->
  simple_aggregate U Ts ->
  offset_based_getter.instantiate U Ts = Some g ->
  (idx < sequence_tuple.size_v Ts)%N ->
  exists layout member st',
    layout = layout_addr g (sp st) /\
    sequence_tuple.get_addr idx (tuple_of_aligned_storage_t Ts) layout
      = Some member /\
    offset_based_getter.offset g idx st = Some (member - layout, st') /\
    member_offset U idx = Some (member - layout).
Proof.
  intros Hwf HU Hg Hi.
  destruct (members_lookup Ts U HU idx Hi) as (T & o & _ & Ho & _ & HoU).
  pose proof (instantiate_getter Ts U g Hg) as ->.
  rewrite offset_run. cbn [offset_based_getter.getter_S].
  unfold sequence_tuple.get_addr, tuple_of_aligned_storage_t.
  rewrite member_offsets_aligned_storage, Ho by assumption. cbn [option_map].
  eexists _, _, _. split; [reflexivity|]. split; [reflexivity|].
  split; [reflexivity|]. rewrite HoU. f_equal. lia.
Qed.

Lemma offset_is_member_offset_witness :
  exists st',
    offset_based_getter.offset A_getter 2 example_state = Some (16, st') /\
    member_offset A 2 = Some 16.
Proof.
  destruct (offset_is_member_offset A_members A A_getter 2 example_state)
    as (layout & member & st' & -> & Hm & E & Ho).
  - reflexivity.
  - reflexivity.
  - reflexivity.
  - reflexivity.
  - exists st'. injection Hm as <-. split; [exact E|exact Ho].
Defined.

(** * The builder *)

(** C2, as the code has it: when none of the references the getter returns
    at the indices [Begin + 0], ..., [Begin + Size - 1] (sums of
    [std::size_t] values) is flattened, that is none refers to a
    [sequence_tuple::tuple] that is not volatile,
    [make_flat_tuple_of_references(t, g, Begin, Size)] is the sequence of
    the getter calls at these indices, in this order. Its result has [Size]
    entries, and entry [k] was returned by the getter at index [Begin + k];
    it is well-formed when these calls are; when the getter returns [f k]
    at index [Begin + k] whatever the state, the result is
    [f 0, ..., f (Size - 1)]. So the flattened tuple of a record with [n]
    members none of which is flattened is the [n] references to its
    members, in declaration order. *)
Theorem make_flat_tuple_of_references_entries
    {G Tuple : Type} {getter : Getter G Tuple}
    (t : Tuple) (g : G) (Begin Size : N) :
  (Begin < size_t_modulus)%N ->
  (forall k, (k < Size)%N -> forall st r st',
     getter_get g t (size_t_add Begin k) st = Some (r, st') ->
     flattens r = false) ->
  make_flat_tuple_of_references t g Begin Size =~=
    traverse (fun k => getter_get g t (size_t_add Begin k))
             (make_index_sequence Size)
  /\ (forall st tup st',
        make_flat_tuple_of_references t g Begin Size st = Some (tup, st') ->
        sequence_tuple.size_v tup = Size /\
        forall k, (k < Size)%N ->
          exists r s1 s2,
            sequence_tuple.get k tup = Some r /\
            getter_get g t (size_t_add Begin k) s1 = Some (r, s2))
  /\ ((forall k st, (k < Size)%N ->
         exists r st', getter_get g t (size_t_add Begin k) st = Some (r, st')) ->
      forall st, exists tup st',
        make_flat_tuple_of_references t g Begin Size st = Some (tup, st'))
  /\ (forall lo (f : N -> reference),
        (forall k, (k < Size)%N ->
           yields lo (getter_get g t (size_t_add Begin k)) (f k)) ->
        yields lo (make_flat_tuple_of_references t g Begin Size)
               (map f (make_index_sequence Size)))
  /\ (forall k, (Begin + k < size_t_modulus)%N ->
        size_t_add Begin k = (Begin + k)%N)
  /\ (forall Ts U (go : offset_based_getter.t) (u : lvalue) st,
        object_types Ts = true ->
        simple_aggregate U Ts ->
        offset_based_getter.instantiate U Ts = Some go ->
        (sequence_tuple.size_v Ts < size_t_modulus)%N ->
        no_flat_members (lv_cv u) Ts = true ->
        exists st',
          make_flat_tuple_of_references u go 0 (sequence_tuple.size_v Ts) st
            = Some (member_references U u, st') /\
          sequence_tuple.size_v (member_references U u)
            = sequence_tuple.size_v Ts).
Proof.
  intros HB Hflat. pose proof (make_flat_traverse t g Begin Size HB Hflat) as Heq.
  split; [exact Heq|]. split; [|split; [|split; [|split]]].
  - intros st tup st' E. rewrite Heq in E. split.
    + unfold sequence_tuple.size_v.
      rewrite (traverse_length _ _ _ _ _ E), make_index_sequence_length. lia.
    + intros k Hk.
      apply (traverse_nth _ _ _ _ _ k k E).
      now apply nth_N_make_index_sequence.
  - intros Hget st. rewrite Heq. apply traverse_total.
    intros k Hk st1. apply Hget. now apply in_make_index_sequence.
  - intros lo f Hf. eapply yields_equiv; [exact Heq|].
    apply yields_traverse. intros k Hk. apply Hf.
    now apply in_make_index_sequence.
  - intros k Hk. now apply size_t_add_small.
  - intros Ts U go u st Hwf HU Hg Hn Hnf.
    destruct (flatten_yields Ts U go Hwf HU Hg u Hn Hnf st) as (st' & E & _).
    exists st'. split; [exact E|].
    unfold sequence_tuple.size_v, member_references.
    now rewrite length_map, (members_length Ts U HU).
Qed.

Lemma make_flat_tuple_of_references_entries_witness :
  (0 < size_t_modulus)%N /\
  exists tup st',
    make_flat_tuple_of_references (object_at_4096 cv_const) A_getter 0 3
      example_state = Some (tup, st') /\
    sequence_tuple.size_v tup = 3%N.
Proof.
  split; [reflexivity|].
  destruct (make_flat_tuple_of_references_entries
              (object_at_4096 cv_const) A_getter 0 3 eq_refl)
    as (_ & Hentries & _).
  - intros k Hk st r st' E. apply get_type in E as [HT _].
    unfold flattens. cbn [offset_based_getter.getter_S A_getter] in HT.
    rewrite nth_N_nth_error in HT. apply nth_error_In in HT.
    destruct HT as [<-|[<-|[<-|[]]]]; reflexivity.
  - destruct (make_flat_tuple_of_references (object_at_4096 cv_const) A_getter
                0 3 example_state) as [[tup st']|] eqn:E.
    + exists tup, st'. split; [reflexivity|]. apply (Hentries _ _ _ E).
    + vm_compute in E. discriminate.
Defined.

(** For [struct B { sequence_tuple::tuple<char, char> p; int n; }] the
    builder called with [Size == 2] returns three entries. *)
Lemma make_flat_tuple_of_references_entries_counterexample :
  exists tup st',
    make_flat_tuple_of_references (object_at_4096 cv_none) B_getter 0 2
      example_state = Some (tup, st') /\
    sequence_tuple.size_v tup = 3%N /\
    sequence_tuple.size_v tup <> 2%N.
Proof.
  destruct (make_flat_tuple_of_references (object_at_4096 cv_none) B_getter
              0 2 example_state) as [[tup st']|] eqn:E.
  - exists tup, st'. split; [reflexivity|].
    vm_compute in E. injection E as <- _.
    split; [reflexivity|discriminate].
  - vm_compute in E. discriminate.
Qed.

(** C4, as the code has it: the three overloads. [Size == 0] gives the
    empty tuple; [Size == 1] gives
    [tie_as_tuple_with_references(g.get(t, size_t_<Begin>{}))], which is the
    one-element tuple bound to this reference unless it is flattened, and
    else what the builder returns for the tuple it refers to; any larger
    [Size] concatenates the results for [Size / 2] elements from [Begin]
    and for [Size - Size / 2] elements from [Begin + Size / 2]. The two
    sizes add up to [Size], and for an odd [Size] the right part is the
    larger one, by one element. *)
Theorem make_flat_tuple_of_references_cases
    {G Tuple : Type} {getter : Getter G Tuple}
    (t : Tuple) (g : G) (Begin Size : N) :
  make_flat_tuple_of_references t g Begin 0 = ret []
  /\ make_flat_tuple_of_references t g Begin 1
       = (r <- getter_get g t Begin ;; tie_as_tuple_with_references [r])
  /\ (forall r, flattens r = false ->
        tie_as_tuple_with_references [r] = ret [r])
  /\ (forall r Ts,
        r_type r = SeqTuple Ts -> is_volatile (r_cv r) = false ->
        object_type (r_type r) = true ->
        tie_as_tuple_with_references [r] =~=
        make_flat_tuple_of_references
          {| tl_types := Ts; tl_addr := r_addr r; tl_cv := r_cv r |}
          Sequence_tuple_getter 0 (sequence_tuple.size_v Ts))
  /\ ((1 < Size)%N ->
      make_flat_tuple_of_references t g Begin Size
        = (a <- make_flat_tuple_of_references t g Begin (Size / 2) ;;
           b <- make_flat_tuple_of_references t g
                  (size_t_add Begin (Size / 2)) (Size - Size / 2) ;;
           my_tuple_cat a b)
      /\ (Size / 2 + (Size - Size / 2) = Size)%N
      /\ (N.odd Size = true -> (Size - Size / 2 = Size / 2 + 1)%N)
      /\ (N.even Size = true -> (Size - Size / 2 = Size / 2)%N)).
Proof.
  split; [apply make_flat_0|]. split; [apply make_flat_1|].
  split; [apply tie_flat|]. split; [apply tie_tuple|].
  intros HS. split; [now apply make_flat_split|].
  pose proof (half_bounds Size) as Hh.
  split; [lia|]. split.
  - intros Ho. apply half_odd in Ho. lia.
  - intros He. apply half_even in He. lia.
Qed.

Lemma make_flat_tuple_of_references_cases_witness :
  (1 < 5)%N /\ (5 / 2 = 2)%N /\ (5 - 5 / 2 = 5 / 2 + 1)%N.
Proof.
  split; [reflexivity|]. split; [reflexivity|].
  destruct (make_flat_tuple_of_references_cases
              (object_at_4096 cv_none) A_getter 0 5)
    as (_ & _ & _ & _ & Hsplit).
  destruct (Hsplit eq_refl) as (_ & _ & Hodd & _).
  apply Hodd. reflexivity.
Defined.

(** For [struct B { sequence_tuple::tuple<char, char> p; int n; }] the
    builder called with [Begin == 0] and [Size == 1] does not return the
    one-element tuple bound to the reference [get] returns at index 0, but
    two references, to the elements of [p]. *)
Lemma make_flat_tuple_of_references_cases_counterexample :
  exists r st1 tup st2,
    offset_based_getter.get B_getter (object_at_4096 cv_none) 0 example_state
      = Some (r, st1) /\
    make_flat_tuple_of_references (object_at_4096 cv_none) B_getter 0 1
      example_state = Some (tup, st2) /\
    tup <> [r] /\ sequence_tuple.size_v tup = 2%N.
Proof.
  destruct (offset_based_getter.get B_getter (object_at_4096 cv_none) 0
              example_state) as [[r st1]|] eqn:Eg;
    [|vm_compute in Eg; discriminate].
  destruct (make_flat_tuple_of_references (object_at_4096 cv_none) B_getter
              0 1 example_state) as [[tup st2]|] eqn:Ef;
    [|vm_compute in Ef; discriminate].
  exists r, st1, tup, st2. split; [reflexivity|]. split; [reflexivity|].
  vm_compute in Eg. vm_compute in Ef.
  injection Eg as <- _. injection Ef as <- _.
  split; [discriminate|reflexivity].
Qed.

(** C6, as the code has it: [my_tuple_cat(t1, t2)] is
    [tie_as_tuple_with_references] of the entries of [t1] followed by those
    of [t2]. Unless this is a single entry, and one that is flattened, the
    result has [size_v t1 + size_v t2] entries; entry [k] is entry [k] of
    [t1] for [k] below [size_v t1], and entry [size_v t1 + k] is entry [k]
    of [t2] for [k] below [size_v t2]. The entries are the references
    themselves, so they designate the same storage. *)
Theorem my_tuple_cat_entries (t1 t2 : list reference) :
  my_tuple_cat t1 t2 = tie_as_tuple_with_references (t1 ++ t2)
  /\ (length (t1 ++ t2) <> 1%nat \/ inert (t1 ++ t2) ->
      exists t12,
        my_tuple_cat t1 t2 = ret t12 /\
        sequence_tuple.size_v t12
          = (sequence_tuple.size_v t1 + sequence_tuple.size_v t2)%N /\
        (forall k, (k < sequence_tuple.size_v t1)%N ->
           exists r, sequence_tuple.get k t12 = Some r /\
                     sequence_tuple.get k t1 = Some r) /\
        (forall k, (k < sequence_tuple.size_v t2)%N ->
           exists r,
             sequence_tuple.get (sequence_tuple.size_v t1 + k) t12 = Some r /\
             sequence_tuple.get k t2 = Some r)).
Proof.
  split; [apply my_tuple_cat_tie|]. intros H.
  exists (t1 ++ t2). split.
  { rewrite my_tuple_cat_tie.
    destruct H as [H|H]; [now apply tie_not_single|now apply tie_inert]. }
  unfold sequence_tuple.size_v, sequence_tuple.get. split; [|split].
  - rewrite length_app. lia.
  - intros k Hk. destruct (nth_N_Some t1 k Hk) as (r & Hr).
    exists r. now rewrite nth_N_app_l.
  - intros k Hk. destruct (nth_N_Some t2 k Hk) as (r & Hr).
    exists r. now rewrite nth_N_app_r.
Qed.

Lemma my_tuple_cat_entries_witness :
  exists t12,
    my_tuple_cat [member_reference (object_at_4096 cv_none) int_t 0]
                 [member_reference (object_at_4096 cv_none) double_t 8;
                  member_reference (object_at_4096 cv_none) char_t 16]
      = ret t12 /\
    sequence_tuple.size_v t12 = 3%N.
Proof.
  destruct (my_tuple_cat_entries
              [member_reference (object_at_4096 cv_none) int_t 0]
              [member_reference (object_at_4096 cv_none) double_t 8;
               member_reference (object_at_4096 cv_none) char_t 16])
    as (_ & H).
  destruct H as (t12 & E & Hsize & _).
  - left. simpl. discriminate.
  - exists t12. split; [exact E|]. rewrite Hsize. reflexivity.
Defined.

(** Concatenating the empty tuple and the one-element tuple bound to a
    [sequence_tuple::tuple<char, char>] object gives a tuple of two
    entries, the references to the two [char]s. *)
Lemma my_tuple_cat_entries_counterexample :
  exists t12 st',
    my_tuple_cat [] [member_reference (object_at_4096 cv_none) pair_t 0]
                 example_state = Some (t12, st') /\
    sequence_tuple.size_v t12 = 2%N /\
    sequence_tuple.size_v t12
      <> (sequence_tuple.size_v (@nil reference)
          + sequence_tuple.size_v
              [member_reference (object_at_4096 cv_none) pair_t 0])%N.
Proof.
  destruct (my_tuple_cat [] [member_reference (object_at_4096 cv_none) pair_t 0]
              example_state) as [[t12 st']|] eqn:E;
    [|vm_compute in E; discriminate].
  exists t12, st'. split; [reflexivity|].
  vm_compute in E. injection E as <- _.
  split; [reflexivity|discriminate].
Qed.

(** C8, as the code has it: the builder computes what the tree of its
    instantiations computes, whatever the getter and
    [tie_as_tuple_with_references] are; in this tree the generic overload
    calls the builder with [Size / 2] and [Size - Size / 2], both smaller
    than [Size] when [Size > 1], so the tree is finite and its depth is
    [ceil(log2 Size)], which is less than [Size]. With a getter that is
    well-formed on the range and returns references to objects of complete
    types, the builder returns a tuple. For a container none of whose
    elements is flattened, [ceil(log2 Size)] is the depth to which all
    calls of the builder nest. An element that is flattened starts the
    builder on that element from the overload for [size_t_<1>], with the
    number of its elements as [Size]. *)
Theorem make_flat_tuple_of_references_terminates (Begin Size : N) :
  (forall {G Tuple : Type} {getter : Getter G Tuple}
          (tie : list reference -> M (list reference)) (t : Tuple) (g : G),
     make_flat_tuple_of_references_at tie t g Begin Size
     = run_instantiations tie t g (instantiations_of Begin Size))
  /\ instantiations_of Begin 0 = size_0
  /\ instantiations_of Begin 1 = size_1 Begin
  /\ ((1 < Size)%N ->
      instantiations_of Begin Size
      = generic (instantiations_of Begin (Size / 2))
                (instantiations_of (size_t_add Begin (Size / 2))
                                   (Size - Size / 2))
      /\ (Size / 2 < Size)%N /\ (Size - Size / 2 < Size)%N)
  /\ (nesting_depth (fun _ => 0%N) (instantiations_of Begin Size)
        = N.log2_up Size
      /\ (2 ^ N.log2_up Size < 2 * Size \/ Size <= 1)%N
      /\ (Size <= 2 ^ N.log2_up Size)%N
      /\ (N.log2_up Size < Size \/ Size = 0)%N)
  /\ (forall {G Tuple : Type} {getter : Getter G Tuple} (t : Tuple) (g : G),
        (Begin < size_t_modulus)%N ->
        (forall k st, (k < Size)%N ->
           exists r st', getter_get g t (size_t_add Begin k) st = Some (r, st')) ->
        (forall k st r st', (k < Size)%N ->
           getter_get g t (size_t_add Begin k) st = Some (r, st') ->
           object_type (r_type r) = true) ->
        forall st, exists tup st',
          make_flat_tuple_of_references t g Begin Size st = Some (tup, st'))
  /\ (forall r Ts,
        r_type r = SeqTuple Ts ->
        is_volatile (r_cv r) = false ->
        object_type (r_type r) = true ->
        tie_as_tuple_with_references [r]
        =~= run_instantiations tie_as_tuple_with_references
              {| tl_types := Ts; tl_addr := r_addr r; tl_cv := r_cv r |}
              Sequence_tuple_getter
              (instantiations_of 0 (sequence_tuple.size_v Ts)))
  /\ (forall Ts q,
        no_flat_members q Ts = true ->
        instantiation_depth Ts q Size = N.log2_up Size).
Proof.
  split; [|split; [|split; [|split; [|split; [|split; [|split]]]]]].
  - intros G Tuple getter tie t g. apply make_flat_at_instantiations.
  - apply instantiations_of_0.
  - apply instantiations_of_1.
  - intros HS. split; [now apply instantiations_of_split|].
    pose proof (half_lt _ HS). pose proof (half_pos _ HS). lia.
  - split; [now apply nesting_depth_log2_up|]. split; [|split].
    + destruct (N.le_gt_cases Size 1) as [Hle|HS]; [now right|left].
      pose proof (N.log2_up_spec Size HS) as [Hlo _].
      assert (0 < N.log2_up Size)%N as Hk by (apply N.log2_up_pos; lia).
      replace (N.log2_up Size) with (N.succ (N.pred (N.log2_up Size))) by lia.
      rewrite N.pow_succ_r'. lia.
    + destruct (N.eq_dec Size 0) as [->|H0]; [cbn; lia|].
      destruct (N.log2_log2_up_spec Size ltac:(lia)) as [_ Hhi]. exact Hhi.
    + destruct (N.eq_dec Size 0) as [->|H0]; [now right|left].
      apply N.log2_up_lt_lin. lia.
  - intros G Tuple getter t g HB Hget Hok st.
    rewrite (make_flat_leaves t g Begin Size HB
               (fun k Hk s r s' => Hok k s r s' Hk)).
    destruct (traverse_total
                (fun k => getter_get g t (size_t_add Begin k))
                (make_index_sequence Size)
                (fun k Hk s => Hget k s (in_make_index_sequence _ _ Hk)) st)
      as (rs & st' & E).
    unfold bind, ret. rewrite E. eauto.
  - intros r Ts HT Hq Hok.
    eapply equiv_trans; [apply (tie_tuple r Ts HT Hq Hok)|].
    unfold make_flat_tuple_of_references.
    rewrite make_flat_at_instantiations. apply equiv_refl.
  - intros Ts q Hflat. now apply instantiation_depth_flat.
Qed.

Lemma make_flat_tuple_of_references_terminates_witness :
  (exists tup st',
     make_flat_tuple_of_references (object_at_4096 cv_none) B_getter 0 2
       example_state = Some (tup, st'))
  /\ instantiations_of 0 2 = generic (size_1 0) (size_1 1)
  /\ instantiation_depth A_members cv_const 2 = 1%N
  /\ tie_as_tuple_with_references
       [member_reference (object_at_4096 cv_none) pair_t 0] example_state
     = run_instantiations tie_as_tuple_with_references
         {| tl_types := [char_t; char_t]; tl_addr := 4096; tl_cv := cv_none |}
         Sequence_tuple_getter (instantiations_of 0 2) example_state.
Proof.
  destruct (make_flat_tuple_of_references_terminates 0 2)
    as (_ & _ & _ & Hsplit & _ & Htotal & Htie & Hdepth).
  split; [|split; [|split]].
  - apply (Htotal _ _ _ (object_at_4096 cv_none) B_getter).
    + reflexivity.
    + intros k st Hk.
      destruct (get_total B_getter (object_at_4096 cv_none) (size_t_add 0 k) st)
        as (T & off & st' & _ & _ & E).
      * rewrite size_t_add_small by (cbn in *; lia). cbn in *. lia.
      * eauto.
    + intros k st r st' _.
      apply (get_object_type B_members B B_getter eq_refl eq_refl).
  - destruct (Hsplit eq_refl) as (-> & _).
    change (2 / 2)%N with 1%N. change (2 - 1)%N with 1%N.
    change (size_t_add 0 1) with 1%N.
    destruct (make_flat_tuple_of_references_terminates 0 1)
      as (_ & _ & -> & _).
    destruct (make_flat_tuple_of_references_terminates 1 1)
      as (_ & _ & -> & _).
    reflexivity.
  - apply (Hdepth A_members cv_const). reflexivity.
  - apply (Htie (member_reference (object_at_4096 cv_none) pair_t 0)
             [char_t; char_t]); reflexivity.
Defined.

(** For the record with the single member
    [sequence_tuple::tuple<char, char> p], the builder called with
    [Size == 1] calls [tie_as_tuple_with_references] on the reference to
    [p], which calls the builder on [p] with [Size == 2], which calls it
    for each element: the calls nest to depth 2, not [ceil(log2 1) = 0]. *)
Lemma make_flat_tuple_of_references_terminates_counterexample :
  instantiation_depth [pair_t] cv_none 1 = 2%N /\
  instantiation_depth [pair_t] cv_none 1 <> N.log2_up 1 /\
  make_flat_tuple_of_references (object_at_4096 cv_none)
    {| offset_based_getter.getter_U := aggregate [pair_t];
       offset_based_getter.getter_S := [pair_t] |} 0 1 example_state
  = (r <- offset_based_getter.get
            {| offset_based_getter.getter_U := aggregate [pair_t];
               offset_based_getter.getter_S := [pair_t] |}
            (object_at_4096 cv_none) 0 ;;
     make_flat_tuple_of_references_at (tie_at 0)
       {| tl_types := [char_t; char_t]; tl_addr := r_addr r; tl_cv := r_cv r |}
       Sequence_tuple_getter 0 2) example_state /\
  instantiations_of 0 2 = generic (size_1 0) (size_1 1).
Proof.
  split; [reflexivity|]. split; [discriminate|]. split; [|reflexivity].
  unfold make_flat_tuple_of_references. rewrite make_flat_at_1.
  unfold bind. unfold getter_get, offset_based_Getter.
  destruct (offset_based_getter.get _ _ _ _) as [[r st']|] eqn:E;
    [|reflexivity].
  apply get_type in E as (HT & Hq). cbn in HT. injection HT as HT.
  destruct r as [a T q]. cbn [r_type r_cv] in *. subst T q.
  reflexivity.
Qed.

(** * Instantiating and calling the accessor *)

(** C5: [offset_based_getter<U, S>] is ill-formed exactly when
    [sizeof(U) != sizeof(S)], or [alignof(U) != alignof(S)], or [U] is
    const-qualified, volatile-qualified or a reference type (one diagnostic
    per failed assertion); otherwise it is well-formed, and then a call of
    [get] with an index below the number of members returns a reference in
    every state: nothing is left to fail when the program runs. *)
Theorem instantiate_static_asserts (U : struct_type) (Ts : list type_info) :
  (offset_based_getter.instantiate U Ts = None <->
     st_sizeof U <> sequence_tuple.tuple_sizeof Ts \/
     st_alignof U <> sequence_tuple.tuple_alignof Ts \/
     st_const U = true \/ st_volatile U = true \/ st_reference U = true)
  /\ (offset_based_getter.instantiate U Ts
        = Some {| offset_based_getter.getter_U := U;
                  offset_based_getter.getter_S := Ts |} <->
      st_sizeof U = sequence_tuple.tuple_sizeof Ts /\
      st_alignof U = sequence_tuple.tuple_alignof Ts /\
      st_const U = false /\ st_volatile U = false /\ st_reference U = false)
  /\ (offset_based_getter.diagnostics U Ts = [] <->
      offset_based_getter.instantiate U Ts <> None)
  /\ (forall g u idx st,
        offset_based_getter.instantiate U Ts = Some g ->
        (idx < sequence_tuple.size_v Ts)%N ->
        exists r st', offset_based_getter.get g u idx st = Some (r, st')).
Proof.
  unfold offset_based_getter.instantiate, offset_based_getter.diagnostics,
         offset_based_getter.static_assert.
  destruct (Z.eqb_spec (st_sizeof U) (sequence_tuple.tuple_sizeof Ts)) as [Es|Es];
  destruct (Z.eqb_spec (st_alignof U) (sequence_tuple.tuple_alignof Ts)) as [Ea|Ea];
  destruct (st_const U), (st_volatile U), (st_reference U); cbn [app negb];
    (split; [|split; [|split]]);
    try (split; intros; try discriminate; try congruence; tauto);
    try (split; intros H; try discriminate; try congruence;
         decompose [and or] H; congruence);
    intros g u idx st [= <-] Hi;
    destruct (get_total {| offset_based_getter.getter_U := U;
                           offset_based_getter.getter_S := Ts |} u idx st Hi)
      as (T & off & st' & _ & _ & E);
    eauto.
Qed.

Lemma instantiate_static_asserts_witness :
  offset_based_getter.instantiate A A_members = Some A_getter /\
  offset_based_getter.instantiate A [int_t; double_t] = None.
Proof.
  destruct (instantiate_static_asserts A A_members) as (_ & Hsome & _).
  destruct (instantiate_static_asserts A [int_t; double_t]) as (Hnone & _).
  split.
  - apply Hsome. repeat split.
  - apply Hnone. left. discriminate.
Defined.

(** C7: [get] has an overload for each qualification of the record. The
    overload for [U&] returns an unqualified reference, the one for
    [const U&] a const reference, the one for [volatile U&] a volatile
    reference and the one for [const volatile U&] a const volatile one, each
    through the [get_pointer] overload of the same qualification, each to
    the type [index_t<idx>], which is the [idx]-th type of [S], at the
    address of the record plus [offset<idx>()]; so the reference returned
    for a record has the qualification of the record. *)
Theorem get_preserves_cv
    (g : offset_based_getter.t) (u : lvalue) (idx : N) (st : state) :
  (idx < sequence_tuple.size_v (offset_based_getter.getter_S g))%N ->
  exists T off st',
    nth_error (offset_based_getter.getter_S g) (N.to_nat idx) = Some T /\
    offset_based_getter.index_t g idx = Some T /\
    offset_based_getter.offset g idx st = Some (off, st') /\
    offset_based_getter.get_pointer g idx (lv_addr u) st
      = Some ({| p_addr := lv_addr u + off; p_type := T; p_cv := cv_none |}, st') /\
    offset_based_getter.get_pointer_c g idx (lv_addr u) st
      = Some ({| p_addr := lv_addr u + off; p_type := T; p_cv := cv_const |}, st') /\
    offset_based_getter.get_pointer_v g idx (lv_addr u) st
      = Some ({| p_addr := lv_addr u + off; p_type := T;
                 p_cv := cv_volatile |}, st') /\
    offset_based_getter.get_pointer_cv g idx (lv_addr u) st
      = Some ({| p_addr := lv_addr u + off; p_type := T;
                 p_cv := cv_const_volatile |}, st') /\
    offset_based_getter.get_m g (lv_addr u) idx st
      = Some ({| r_addr := lv_addr u + off; r_type := T; r_cv := cv_none |}, st') /\
    offset_based_getter.get_c g (lv_addr u) idx st
      = Some ({| r_addr := lv_addr u + off; r_type := T; r_cv := cv_const |}, st') /\
    offset_based_getter.get_v g (lv_addr u) idx st
      = Some ({| r_addr := lv_addr u + off; r_type := T; r_cv := cv_volatile |}, st') /\
    offset_based_getter.get_cv g (lv_addr u) idx st
      = Some ({| r_addr := lv_addr u + off; r_type := T;
                 r_cv := cv_const_volatile |}, st') /\
    offset_based_getter.get g u idx st
      = Some ({| r_addr := lv_addr u + off; r_type := T; r_cv := lv_cv u |}, st').
Proof.
  intros Hi.
  destruct (get_total g u idx st Hi) as (T & off & st' & HT & Hoff & Hget).
  exists T, off, st'.
  split.
  { unfold offset_based_getter.index_t, sequence_tuple.tuple_element in HT.
    now rewrite nth_N_nth_error in HT. }
  split; [exact HT|]. split; [exact Hoff|].
  assert (forall q,
            (T0 <- lift (offset_based_getter.index_t g idx) ;;
             o <- offset_based_getter.offset g idx ;;
             ret {| p_addr := lv_addr u + o; p_type := T0; p_cv := q |}) st
            = Some ({| p_addr := lv_addr u + off; p_type := T; p_cv := q |}, st'))
    as Hp.
  { intros q. unfold bind, lift, ret. now rewrite HT, Hoff. }
  split; [exact (Hp cv_none)|]. split; [exact (Hp cv_const)|].
  split; [exact (Hp cv_volatile)|]. split; [exact (Hp cv_const_volatile)|].
  pose proof (fun q => get_run g {| lv_addr := lv_addr u; lv_cv := q |} idx st)
    as Hq.
  rewrite HT, Hoff in Hq. cbn [lv_addr lv_cv] in Hq.
  split; [exact (Hq cv_none)|]. split; [exact (Hq cv_const)|].
  split; [exact (Hq cv_volatile)|]. split; [exact (Hq cv_const_volatile)|].
  exact Hget.
Qed.

Lemma get_preserves_cv_witness :
  exists st',
    offset_based_getter.get A_getter (object_at_4096 cv_const) 1 example_state
      = Some ({| r_addr := 4104; r_type := double_t; r_cv := cv_const |}, st').
Proof.
  destruct (get_preserves_cv A_getter (object_at_4096 cv_const) 1 example_state)
    as (T & off & st' & HT & _ & Hoff & _ & _ & _ & _ & _ & _ & _ & _ & Hget).
  - reflexivity.
  - exists st'. rewrite Hget. injection HT as <-.
    rewrite offset_value in Hoff. injection Hoff as <- _.
    reflexivity.
Defined.

(** C10: the value [offset<idx>()] returns does not depend on the state it
    is called in, so not on where its local layout object is placed; the
    call restores the stack pointer. Hence [get] on the same record with the
    same index returns the same reference whenever it is called, also when
    called twice in a row. For an index below the number of members both
    return: [offset<idx>()] always the same value [v], [get] always the same
    reference, to the address of the record plus [v]. Nothing of the layout
    object is left behind: after the call the stack pointer is what it was,
    every byte outside the storage the layout object had is what it was,
    and every byte of memory is either what it was or zero, the
    value-initialisation of the layout object. *)
Theorem offset_deterministic
    (g : offset_based_getter.t) (u : lvalue) (idx : N) (st1 st2 : state) :
  option_map fst (offset_based_getter.offset g idx st1)
    = option_map fst (offset_based_getter.offset g idx st2)
  /\ option_map fst (offset_based_getter.get g u idx st1)
     = option_map fst (offset_based_getter.get g u idx st2)
  /\ (forall v st1',
        offset_based_getter.offset g idx st1 = Some (v, st1') ->
        sp st1' = sp st1 /\
        exists member,
          sequence_tuple.get_addr idx
            (tuple_of_aligned_storage_t (offset_based_getter.getter_S g))
            (layout_addr g (sp st1)) = Some member /\
          v = member - layout_addr g (sp st1) /\
          sequence_tuple.get_addr idx
            (tuple_of_aligned_storage_t (offset_based_getter.getter_S g))
            (layout_addr g (sp st2))
            = Some (v + layout_addr g (sp st2)))
  /\ (forall r1 st1' r2 st1'',
        offset_based_getter.get g u idx st1 = Some (r1, st1') ->
        offset_based_getter.get g u idx st1' = Some (r2, st1'') ->
        r1 = r2)
  /\ ((idx < sequence_tuple.size_v (offset_based_getter.getter_S g))%N ->
      exists v r,
        r_addr r = lv_addr u + v /\
        nth_error (offset_based_getter.getter_S g) (N.to_nat idx)
          = Some (r_type r) /\
        r_cv r = lv_cv u /\
        (object_types (offset_based_getter.getter_S g) = true ->
         nth_error (member_offsets (offset_based_getter.getter_S g))
                   (N.to_nat idx) = Some v) /\
        forall st, exists st',
          offset_based_getter.offset g idx st = Some (v, st') /\
          offset_based_getter.get g u idx st = Some (r, st') /\
          sp st' = sp st /\
          (forall a, ~ (layout_addr g (sp st) <= a < sp st) ->
                     mem st' a = mem st a) /\
          (forall a, mem st' a = mem st a \/ mem st' a = x00) /\
          exists st'',
            offset_based_getter.offset g idx st' = Some (v, st'') /\
            offset_based_getter.get g u idx st' = Some (r, st'')).
Proof.
  assert (forall sa sb,
             option_map fst (offset_based_getter.offset g idx sa)
             = option_map fst (offset_based_getter.offset g idx sb)) as Hoff.
  { intros sa sb. rewrite !offset_value.
    destruct (nth_N _ idx); reflexivity. }
  assert (forall sa sb,
             option_map fst (offset_based_getter.get g u idx sa)
             = option_map fst (offset_based_getter.get g u idx sb)) as Hget.
  { intros sa sb. rewrite !get_run. specialize (Hoff sa sb).
    destruct (offset_based_getter.index_t g idx); [|reflexivity].
    destruct (offset_based_getter.offset g idx sa) as [[oa sa']|],
             (offset_based_getter.offset g idx sb) as [[ob sb']|];
      simpl in *; congruence. }
  split; [apply Hoff|]. split; [apply Hget|]. split; [|split].
  - intros v st1' E. rewrite offset_run in E.
    unfold sequence_tuple.get_addr in *.
    destruct (nth_N _ idx) as [o|]; [|discriminate].
    cbn [option_map] in *. injection E as <- <-.
    split; [reflexivity|]. eexists. split; [reflexivity|].
    split; [reflexivity|]. f_equal. lia.
  - intros r1 st1' r2 st1'' E1 E2.
    specialize (Hget st1 st1'). rewrite E1, E2 in Hget.
    simpl in Hget. congruence.
  - intros Hi.
    destruct (nth_N_Some (offset_based_getter.getter_S g) idx Hi) as (T & HT).
    destruct (nth_N_Some
                (member_offsets
                   (tuple_of_aligned_storage_t (offset_based_getter.getter_S g)))
                idx) as (v & Hv).
    { rewrite length_member_offsets. unfold tuple_of_aligned_storage_t,
        tuple_of_aligned_storage. now rewrite length_map. }
    exists v, {| r_addr := lv_addr u + v; r_type := T; r_cv := lv_cv u |}.
    cbn [r_addr r_type r_cv].
    split; [reflexivity|]. split; [now rewrite <- nth_N_nth_error|].
    split; [reflexivity|]. split.
    { intros Hwf. rewrite <- nth_N_nth_error.
      unfold tuple_of_aligned_storage_t in Hv.
      now rewrite (member_offsets_aligned_storage _ Hwf) in Hv. }
    assert (forall st,
              offset_based_getter.offset g idx st = Some (v, after_offset g st)
              /\ offset_based_getter.get g u idx st
                 = Some ({| r_addr := lv_addr u + v; r_type := T;
                            r_cv := lv_cv u |}, after_offset g st)) as Hrun.
    { intros st.
      assert (offset_based_getter.offset g idx st = Some (v, after_offset g st))
        as E by (now rewrite offset_value, Hv).
      split; [exact E|]. rewrite get_run.
      unfold offset_based_getter.index_t, sequence_tuple.tuple_element.
      now rewrite HT, E. }
    intros st. exists (after_offset g st).
    destruct (Hrun st) as (Eo & Eg).
    split; [exact Eo|]. split; [exact Eg|]. split; [reflexivity|].
    split; [apply after_offset_frame|]. split.
    + intros a. unfold after_offset. cbn [mem].
      destruct (in_range _ _ a); [now right|now left].
    + exists (after_offset g (after_offset g st)). apply Hrun.
Qed.

Lemma offset_deterministic_witness :
  exists v st' st'',
    offset_based_getter.offset A_getter 1 example_state = Some (v, st') /\
    offset_based_getter.offset A_getter 1 st' = Some (v, st'') /\
    (forall a, mem st' a = mem example_state a \/ mem st' a = x00) /\
    option_map fst (offset_based_getter.offset A_getter 1 example_state)
    = option_map fst (offset_based_getter.offset A_getter 1
                        {| mem := fun _ => x00; sp := 65536 |}).
Proof.
  destruct (offset_deterministic A_getter (object_at_4096 cv_none) 1
              example_state {| mem := fun _ => x00; sp := 65536 |})
    as (Hsame & _ & _ & _ & Hin).
  destruct (Hin eq_refl) as (v & r & _ & _ & _ & _ & Hall).
  destruct (Hall example_state)
    as (st' & Eo & _ & _ & _ & Hm & st'' & Eo' & _).
  exists v, st', st''. repeat split; assumption.
Defined.

(** * Writing through an entry *)

(** C9, as the code has it: after a record none of whose members is
    flattened has been flattened, assigning through entry [i] (possible
    when the record is not const) stores the value in member [i] and
    changes no byte outside the storage of member [i]; in particular every
    other member [j] keeps its value, because the storage of two distinct
    members does not overlap. *)
Theorem assign_through_entry_frame
    (Ts : list type_info) (U : struct_type) (g : offset_based_getter.t)
    (u : lvalue) (i j : N) (v : list byte)
    (st st1 : state) (tup : list reference) (ri rj : reference) :
  object_types Ts = true ->
  simple_aggregate U Ts ->
  offset_based_getter.instantiate U Ts = Some g ->
  (sequence_tuple.size_v Ts < size_t_modulus)%N ->
  no_flat_members (lv_cv u) Ts = true ->
  make_flat_tuple_of_references u g 0 (sequence_tuple.size_v Ts) st
    = Some (tup, st1) ->
  sequence_tuple.get i tup = Some ri ->
  sequence_tuple.get j tup = Some rj ->
  i <> j ->
  is_const (lv_cv u) = false ->
  Z.of_nat (length v) = ty_sizeof (r_type ri) ->
  exists st2,
    assign ri v st1 = Some (tt, st2) /\
    member_value U u i (mem st2) = Some v /\
    read ri (mem st2) = v /\
    read rj (mem st2) = read rj (mem st1) /\
    member_value U u j (mem st2) = member_value U u j (mem st1) /\
    (forall a, ~ (r_addr ri <= a < r_addr ri + ty_sizeof (r_type ri)) ->
               mem st2 a = mem st1 a) /\
    (r_addr ri + ty_sizeof (r_type ri) <= r_addr rj \/
     r_addr rj + ty_sizeof (r_type rj) <= r_addr ri).
Proof.
  intros Hwf HU Hg Hn Hnf Hflat Hi Hj Hij Hconst Hlen.
  destruct (flatten_yields Ts U g Hwf HU Hg u Hn Hnf st) as (st1' & E & _).
  rewrite E in Hflat. injection Hflat as <- <-.
  unfold sequence_tuple.get in Hi, Hj.
  apply nth_member_references_inv in Hi as (Ti & oi & HTi & Hoi & ->).
  apply nth_member_references_inv in Hj as (Tj & oj & HTj & Hoj & ->).
  pose proof (members_disjoint Ts U Hwf HU i j Ti Tj oi oj Hij HTi Hoi HTj Hoj)
    as Hdisj.
  cbn [member_reference r_addr r_type r_cv] in *.
  unfold assign. cbn [member_reference r_addr r_type r_cv].
  rewrite Hconst. rewrite (proj2 (Z.eqb_eq _ _) Hlen). cbn [negb].
  eexists. split; [reflexivity|]. cbn [mem].
  assert (forall a, ~ (lv_addr u + oi <= a < lv_addr u + oi + ty_sizeof Ti) ->
                    store_bytes (mem st1') (lv_addr u + oi) v a = mem st1' a)
    as Hout.
  { intros a Ha. apply store_bytes_outside. lia. }
  assert (load_bytes (store_bytes (mem st1') (lv_addr u + oi) v)
                     (lv_addr u + oj) (ty_sizeof Tj)
          = load_bytes (mem st1') (lv_addr u + oj) (ty_sizeof Tj)) as Hj.
  { apply load_bytes_ext. intros a Ha. apply Hout. lia. }
  assert (load_bytes (store_bytes (mem st1') (lv_addr u + oi) v)
                     (lv_addr u + oi) (ty_sizeof Ti) = v) as Hi.
  { rewrite <- Hlen. apply load_store_bytes. }
  split; [|split; [|split; [|split; [|split]]]].
  - unfold member_value. rewrite HTi, Hoi. now rewrite Hi.
  - unfold read. cbn [member_reference r_addr r_type]. exact Hi.
  - unfold read. cbn [member_reference r_addr r_type]. exact Hj.
  - unfold member_value. rewrite HTj, Hoj. now rewrite Hj.
  - exact Hout.
  - lia.
Qed.

Lemma assign_through_entry_frame_witness :
  exists tup st1 st2 r0 r1,
    make_flat_tuple_of_references (object_at_4096 cv_none) A_getter 0 3
      example_state = Some (tup, st1) /\
    sequence_tuple.get 0 tup = Some r0 /\
    sequence_tuple.get 1 tup = Some r1 /\
    assign r0 [x07; x00; x00; x00] st1 = Some (tt, st2) /\
    read r0 (mem st2) = [x07; x00; x00; x00] /\
    read r1 (mem st2) = read r1 (mem st1).
Proof.
  destruct (flatten_yields A_members A A_getter eq_refl eq_refl eq_refl
              (object_at_4096 cv_none) eq_refl eq_refl example_state)
    as (st1 & E & _).
  destruct (assign_through_entry_frame
              A_members A A_getter (object_at_4096 cv_none) 0 1
              [x07; x00; x00; x00] example_state st1
              (member_references A (object_at_4096 cv_none))
              (member_reference (object_at_4096 cv_none) int_t 0)
              (member_reference (object_at_4096 cv_none) double_t 8))
    as (st2 & Hassign & _ & Hri & Hrj & _).
  - reflexivity.
  - reflexivity.
  - reflexivity.
  - reflexivity.
  - reflexivity.
  - exact E.
  - reflexivity.
  - reflexivity.
  - discriminate.
  - reflexivity.
  - reflexivity.
  - exists (member_references A (object_at_4096 cv_none)), st1, st2,
           (member_reference (object_at_4096 cv_none) int_t 0),
           (member_reference (object_at_4096 cv_none) double_t 8).
    repeat split; assumption.
Defined.

(** For [struct B { sequence_tuple::tuple<char, char> p; int n; }], entry 1
    of the flattened tuple refers to the second [char] of [p]: assigning
    through it changes member 0, and leaves member 1 as it was. *)
Lemma assign_through_entry_frame_counterexample :
  exists tup st1 r1 st2,
    make_flat_tuple_of_references (object_at_4096 cv_none) B_getter 0 2
      example_state = Some (tup, st1) /\
    sequence_tuple.get 1 tup = Some r1 /\
    assign r1 [x07] st1 = Some (tt, st2) /\
    member_value B (object_at_4096 cv_none) 0 (mem st1) = Some [x2a; x2a] /\
    member_value B (object_at_4096 cv_none) 0 (mem st2) = Some [x2a; x07] /\
    member_value B (object_at_4096 cv_none) 1 (mem st2)
      = member_value B (object_at_4096 cv_none) 1 (mem st1).
Proof.
  destruct (make_flat_tuple_of_references (object_at_4096 cv_none) B_getter
              0 2 example_state) as [[tup st1]|] eqn:Ef;
    [|vm_compute in Ef; discriminate].
  vm_compute in Ef. injection Ef as <- <-.
  eexists _, _, _, _. split; [reflexivity|].
  split; [reflexivity|]. split; [reflexivity|].
  split; [reflexivity|]. split; reflexivity.
Qed.

(** * Further properties of the two headers *)

(** ** What the flattened tuple consists of *)

Lemma references_from_cons (a : Z) (q : cv_qual) (cur : Z)
      (T : type_info) (Ts : list type_info) :
  references_from a q cur (T :: Ts)
  = {| r_addr := a + align_up cur (ty_alignof T); r_type := T; r_cv := q |}
    :: references_from a q (align_up cur (ty_alignof T) + ty_sizeof T) Ts.
Proof.
  unfold references_from, ty_alignof, ty_sizeof. cbn [map].
  destruct (ty_shape T) as [s al]. reflexivity.
Qed.

Lemma layout_end_cons (cur : Z) (T : type_info) (Ts : list type_info) :
  layout_end cur (map ty_shape (T :: Ts))
  = layout_end (align_up cur (ty_alignof T) + ty_sizeof T) (map ty_shape Ts).
Proof.
  unfold ty_alignof, ty_sizeof. cbn [map].
  destruct (ty_shape T) as [s al]. reflexivity.
Qed.

Lemma element_references_from (t : tuple_lvalue) :
  element_references t = references_from (tl_addr t) (tl_cv t) 0 (tl_types t).
Proof. reflexivity. Qed.

Lemma member_references_from (Ts : list type_info) (U : struct_type) (u : lvalue) :
  simple_aggregate U Ts ->
  member_references U u = references_from (lv_addr u) (lv_cv u) 0 Ts.
Proof. intros HU. unfold member_references. rewrite HU. reflexivity. Qed.

Lemma leaves_of_tuple_from (Ts : list type_info) (a : Z) (q : cv_qual) :
  is_volatile q = false ->
  leaves_of (SeqTuple Ts) a q = flat_map leaves (references_from a q 0 Ts).
Proof. intros Hq. now rewrite leaves_of_tuple. Qed.

Lemma leaves_of_volatile (T : type_info) (a : Z) (q : cv_qual) :
  is_volatile q = true ->
  leaves_of T a q = [{| r_addr := a; r_type := T; r_cv := q |}].
Proof.
  intros Hq. destruct T as [name size align|Ts]; [reflexivity|].
  cbn [leaves_of]. now rewrite Hq.
Qed.

(** Every reference an object is flattened to has the qualification of the
    object. *)
Lemma leaves_of_cv (T : type_info) :
  forall a q, Forall (fun x => r_cv x = q) (leaves_of T a q).
Proof.
  induction T as [name size align|Ts IH] using type_info_ind; intros a q.
  - repeat constructor.
  - destruct (is_volatile q) eqn:Hq.
    + rewrite leaves_of_volatile by assumption. repeat constructor.
    + rewrite leaves_of_tuple_from by assumption.
      generalize 0 as cur.
      induction IH as [|T Ts HT HTs IHl]; intros cur; [constructor|].
      rewrite references_from_cons. cbn [flat_map].
      apply Forall_app. split; [apply HT|apply IHl].
Qed.

Lemma references_from_cv (a : Z) (q : cv_qual) (Ts : list type_info) :
  forall cur, Forall (fun x => r_cv x = q)
                (flat_map leaves (references_from a q cur Ts)).
Proof.
  induction Ts as [|T Ts IH]; intros cur; [constructor|].
  rewrite references_from_cons. cbn [flat_map].
  apply Forall_app. split; [apply leaves_of_cv|apply IH].
Qed.

(** The number of references an object is flattened to depends on its type
    and on whether it is volatile only. *)
Lemma leaves_of_length (T : type_info) :
  forall a q, length (leaves_of T a q) = leaf_count (is_volatile q) T.
Proof.
  induction T as [name size align|Ts IH] using type_info_ind; intros a q.
  - reflexivity.
  - destruct (is_volatile q) eqn:Hq.
    + rewrite leaves_of_volatile by assumption. reflexivity.
    + rewrite leaves_of_tuple_from by assumption. cbn [leaf_count].
      generalize 0 as cur.
      induction IH as [|T Ts HT HTs IHl]; intros cur; [reflexivity|].
      rewrite references_from_cons. cbn [flat_map fold_right].
      rewrite length_app, IHl. f_equal.
      unfold leaves. cbn [r_type r_addr r_cv]. rewrite HT. now rewrite Hq.
Qed.

Lemma references_from_length (a : Z) (q : cv_qual) (Ts : list type_info) :
  forall cur,
  length (flat_map leaves (references_from a q cur Ts))
  = leaf_counts (is_volatile q) Ts.
Proof.
  induction Ts as [|T Ts IH]; intros cur; [reflexivity|].
  rewrite references_from_cons. cbn [flat_map leaf_counts fold_right].
  rewrite length_app. fold (leaf_counts (is_volatile q) Ts).
  rewrite IH. f_equal. apply leaves_of_length.
Qed.

(** ** Where the entries of the flattened tuple lie *)

Lemma laid_out_le (l : list reference) :
  forall lo hi, laid_out lo hi l -> lo <= hi.
Proof.
  induction l as [|r l IH]; intros lo hi H; [exact H|].
  destruct H as (Hlo & Hs & H). specialize (IH _ _ H). lia.
Qed.

Lemma laid_out_weaken (l : list reference) :
  forall lo hi lo' hi',
  lo' <= lo -> hi <= hi' -> laid_out lo hi l -> laid_out lo' hi' l.
Proof.
  induction l as [|r l IH]; intros lo hi lo' hi' Hlo Hhi H; cbn [laid_out] in *.
  - lia.
  - destruct H as (H1 & Hs & H). split; [lia|]. split; [assumption|].
    eapply IH; [| |exact H]; lia.
Qed.

Lemma laid_out_app (l1 l2 : list reference) :
  forall lo mid hi,
  laid_out lo mid l1 -> laid_out mid hi l2 -> laid_out lo hi (l1 ++ l2).
Proof.
  induction l1 as [|r l1 IH]; intros lo mid hi H1 H2; cbn [app laid_out] in *.
  - eapply laid_out_weaken; [| |exact H2]; lia.
  - destruct H1 as (Hlo & Hs & H1). split; [assumption|].
    split; [assumption|]. eapply IH; eauto.
Qed.

Lemma laid_out_nth (l : list reference) :
  forall lo hi n r,
  laid_out lo hi l -> nth_error l n = Some r ->
  lo <= r_addr r /\ 0 < ty_sizeof (r_type r) /\
  r_addr r + ty_sizeof (r_type r) <= hi.
Proof.
  induction l as [|x l IH]; intros lo hi n r H Hn.
  - destruct n; discriminate.
  - destruct H as (Hlo & Hs & H).
    destruct n as [|n]; cbn [nth_error] in Hn.
    + injection Hn as <-. pose proof (laid_out_le _ _ _ H). lia.
    + destruct (IH _ _ _ _ H Hn) as (H1 & H2 & H3). lia.
Qed.

Lemma laid_out_before (l : list reference) :
  forall lo hi n k r r',
  laid_out lo hi l -> (n < k)%nat ->
  nth_error l n = Some r -> nth_error l k = Some r' ->
  r_addr r + ty_sizeof (r_type r) <= r_addr r'.
Proof.
  induction l as [|x l IH]; intros lo hi n k r r' H Hnk Hn Hk.
  - destruct n; discriminate.
  - destruct H as (Hlo & Hs & H).
    destruct k as [|k]; [lia|]. cbn [nth_error] in Hk.
    destruct n as [|n]; cbn [nth_error] in Hn.
    + injection Hn as <-. apply (laid_out_nth _ _ _ _ _ H Hk).
    + eapply (IH _ _ n k); eauto. lia.
Qed.

Lemma laid_out_references (a : Z) (q : cv_qual) (Ts : list type_info) :
  Forall (fun T => object_type T = true ->
                   forall a q, laid_out a (a + ty_sizeof T) (leaves_of T a q)) Ts ->
  object_types Ts = true ->
  forall cur,
  laid_out (a + cur) (a + layout_end cur (map ty_shape Ts))
           (flat_map leaves (references_from a q cur Ts)).
Proof.
  induction 1 as [|T Ts HT HTs IH]; intros Hok cur.
  - cbn. lia.
  - cbn [object_types forallb] in Hok. apply andb_true_iff in Hok as [HokT Hok].
    rewrite references_from_cons, layout_end_cons. cbn [flat_map].
    pose proof (object_type_spec T HokT) as (Hal & Hs & _).
    pose proof (align_up_ge cur _ Hal) as Hge.
    unfold leaves at 1. cbn [r_addr r_type r_cv].
    eapply laid_out_app.
    + eapply laid_out_weaken;
        [| |apply (HT HokT (a + align_up cur (ty_alignof T)) q)];
        [lia|apply Z.le_refl].
    + rewrite <- Z.add_assoc. now apply IH.
Qed.

(** The references an object of a complete type is flattened to follow
    each other inside the object. *)
Lemma leaves_of_laid_out (T : type_info) :
  object_type T = true ->
  forall a q, laid_out a (a + ty_sizeof T) (leaves_of T a q).
Proof.
  induction T as [name size align|Ts IH] using type_info_ind; intros Hok a q.
  - apply object_type_spec in Hok as (_ & Hs & _).
    cbn [leaves_of laid_out r_addr r_type]. lia.
  - pose proof (object_type_spec _ Hok) as (_ & Hs & _).
    destruct (is_volatile q) eqn:Hq.
    + rewrite leaves_of_volatile by assumption.
      cbn [laid_out r_addr r_type]. lia.
    + rewrite leaves_of_tuple_from by assumption.
      assert (object_types Ts = true) as Hoks.
      { cbn [object_type] in Hok. now apply andb_true_iff in Hok as [Hok _]. }
      pose proof (laid_out_references a q Ts IH Hoks 0) as H.
      eapply laid_out_weaken; [| |exact H]; [lia|].
      unfold ty_sizeof. cbn [ty_shape fst]. unfold aggregate_sizeof.
      pose proof (align_up_ge (layout_end 0 (map ty_shape Ts)) _
                    (aggregate_alignof_pos (map ty_shape Ts))).
      lia.
Qed.

Lemma members_laid_out (Ts : list type_info) (a : Z) (q : cv_qual) :
  object_types Ts = true ->
  laid_out a (a + aggregate_sizeof (map ty_shape Ts))
           (flat_map leaves (references_from a q 0 Ts)).
Proof.
  intros Hok.
  assert (Forall (fun T => object_type T = true ->
                   forall a q, laid_out a (a + ty_sizeof T) (leaves_of T a q)) Ts)
    as HF.
  { apply Forall_forall. intros T _. apply leaves_of_laid_out. }
  pose proof (laid_out_references a q Ts HF Hok 0) as H.
  eapply laid_out_weaken; [| |exact H]; [lia|].
  unfold aggregate_sizeof.
  pose proof (align_up_ge (layout_end 0 (map ty_shape Ts)) _
                (aggregate_alignof_pos (map ty_shape Ts))).
  lia.
Qed.

Lemma flat_map_leaves_inert_all (rs : list reference) :
  inert (flat_map leaves rs).
Proof.
  induction rs as [|r rs IH]; [constructor|].
  cbn [flat_map]. apply Forall_app. split; [apply leaves_inert|exact IH].
Qed.

Lemma bind_ret_inv {A B : Type} (c : M A) (f : A -> B) st b st' :
  (a <- c ;; ret (f a)) st = Some (b, st') ->
  exists a, c st = Some (a, st') /\ b = f a.
Proof.
  unfold bind, ret. destruct (c st) as [[a s]|]; [|discriminate].
  intros [= <- <-]. eauto.
Qed.

(** ** The builder on records and on tuples *)

(** X1: flattening a record laid out as [S] returns, for each member in
    declaration order, the reference to the member, or for a member that is
    a [sequence_tuple::tuple] and not volatile, what its elements are
    flattened to, in order. The call restores the stack pointer and writes
    to the storage of the local layout objects only. *)
Theorem flatten_record_leaves
    (Ts : list type_info) (U : struct_type) (g : offset_based_getter.t)
    (u : lvalue) (st : state) :
  object_types Ts = true ->
  simple_aggregate U Ts ->
  offset_based_getter.instantiate U Ts = Some g ->
  (sequence_tuple.size_v Ts < size_t_modulus)%N ->
  (exists st',
     make_flat_tuple_of_references u g 0 (sequence_tuple.size_v Ts) st
       = Some (flat_map leaves (member_references U u), st') /\
     sp st' = sp st /\
     forall x, ~ (layout_addr g (sp st) <= x < sp st) -> mem st' x = mem st x)
  /\ (forall r, flattens r = false -> leaves r = [r])
  /\ (forall r Ts',
        r_type r = SeqTuple Ts' -> is_volatile (r_cv r) = false ->
        leaves r
        = flat_map leaves
            (element_references
               {| tl_types := Ts'; tl_addr := r_addr r; tl_cv := r_cv r |})).
Proof.
  intros Hwf HU Hg Hn. split; [|split].
  - destruct (flatten_leaves Ts U g Hwf HU Hg u Hn st) as (st' & E & Hsp & Hm).
    eauto.
  - apply leaves_flat.
  - apply leaves_tuple.
Qed.

Lemma flatten_record_leaves_witness :
  exists st',
    make_flat_tuple_of_references (object_at_4096 cv_const) B_getter 0 2
      example_state
    = Some ([ {| r_addr := 4096; r_type := char_t; r_cv := cv_const |};
              {| r_addr := 4097; r_type := char_t; r_cv := cv_const |};
              {| r_addr := 4100; r_type := int_t; r_cv := cv_const |} ], st').
Proof.
  destruct (flatten_record_leaves B_members B B_getter (object_at_4096 cv_const)
              example_state) as ((st' & E & _) & _).
  - reflexivity.
  - reflexivity.
  - reflexivity.
  - reflexivity.
  - exists st'. exact E.
Defined.

(** X2: for an lvalue of a complete [sequence_tuple::tuple] type that is not
    volatile, [tie_as_tuple_with_references(t)] and the builder with
    [sequence_tuple_getter] over all of [t] return the same tuple: what the
    elements of [t] are flattened to, in order. Neither touches the
    machine state. *)
Theorem tie_tuple_leaves (t : tuple_lvalue) (st : state) :
  object_type (SeqTuple (tl_types t)) = true ->
  is_volatile (tl_cv t) = false ->
  tie_as_tuple_with_references
    [{| r_addr := tl_addr t; r_type := SeqTuple (tl_types t); r_cv := tl_cv t |}] st
    = Some (flat_map leaves (element_references t), st)
  /\ make_flat_tuple_of_references t Sequence_tuple_getter 0
       (sequence_tuple.size_v (tl_types t)) st
     = Some (flat_map leaves (element_references t), st).
Proof.
  intros Hok Hq.
  set (r := {| r_addr := tl_addr t; r_type := SeqTuple (tl_types t);
               r_cv := tl_cv t |}).
  assert (tie_as_tuple_with_references [r] st
          = Some (flat_map leaves (element_references t), st)) as Htie.
  { rewrite (tie_leaves r Hok).
    rewrite (leaves_tuple r (tl_types t) eq_refl Hq).
    destruct t; reflexivity. }
  split; [exact Htie|].
  rewrite <- Htie.
  rewrite (tie_tuple r (tl_types t) eq_refl Hq Hok).
  destruct t; reflexivity.
Qed.

Lemma tie_tuple_leaves_witness :
  tie_as_tuple_with_references
    [{| r_addr := 4096; r_type := SeqTuple [pair_t; int_t; SeqTuple []];
        r_cv := cv_none |}] example_state
  = Some ([ {| r_addr := 4096; r_type := char_t; r_cv := cv_none |};
            {| r_addr := 4097; r_type := char_t; r_cv := cv_none |};
            {| r_addr := 4100; r_type := int_t; r_cv := cv_none |} ],
          example_state).
Proof.
  destruct (tie_tuple_leaves
              {| tl_types := [pair_t; int_t; SeqTuple []]; tl_addr := 4096;
                 tl_cv := cv_none |} example_state) as (E & _).
  - reflexivity.
  - reflexivity.
  - exact E.
Defined.

(** X3: whatever the getter, as long as it returns references to objects of
    complete types: no entry of the tuple the builder returns refers to a
    [sequence_tuple::tuple] that is not volatile. So flattening is
    idempotent: [tie_as_tuple_with_references] returns the entries as they
    are, and so does [my_tuple_cat] with the empty tuple. *)
Theorem make_flat_result_inert
    {G Tuple : Type} {getter : Getter G Tuple}
    (t : Tuple) (g : G) (Begin Size : N) (st st' : state)
    (tup : list reference) :
  (Begin < size_t_modulus)%N ->
  (forall k, (k < Size)%N -> forall s r s',
     getter_get g t (size_t_add Begin k) s = Some (r, s') ->
     object_type (r_type r) = true) ->
  make_flat_tuple_of_references t g Begin Size st = Some (tup, st') ->
  Forall (fun r => flattens r = false) tup
  /\ tie_as_tuple_with_references tup = ret tup
  /\ my_tuple_cat tup [] = ret tup
  /\ my_tuple_cat [] tup = ret tup.
Proof.
  intros HB Hok E.
  rewrite (make_flat_leaves t g Begin Size HB Hok) in E.
  apply bind_ret_inv in E as (rs & _ & ->).
  pose proof (flat_map_leaves_inert_all rs) as Hin.
  split; [exact Hin|]. split; [now apply tie_inert|].
  rewrite !my_tuple_cat_tie, app_nil_r. cbn [app].
  split; now apply tie_inert.
Qed.

Lemma make_flat_result_inert_witness :
  exists tup st',
    make_flat_tuple_of_references (object_at_4096 cv_none) B_getter 0 2
      example_state = Some (tup, st') /\
    tie_as_tuple_with_references tup = ret tup.
Proof.
  destruct (make_flat_tuple_of_references (object_at_4096 cv_none) B_getter 0 2
              example_state) as [[tup st']|] eqn:E;
    [|vm_compute in E; discriminate].
  exists tup, st'. split; [reflexivity|].
  apply (make_flat_result_inert (object_at_4096 cv_none) B_getter 0 2
           example_state st' tup).
  - reflexivity.
  - intros k Hk s r s' Eg.
    apply (get_object_type B_members B B_getter eq_refl eq_refl _ _ _ _ _ Eg).
  - exact E.
Defined.

(** X4: every entry of the flattened tuple of a record has the
    qualification of the record, also the entries that come from members
    that are tuples. So no entry of the flattened tuple of a const record
    can be assigned through. *)
Theorem flatten_preserves_cv
    (Ts : list type_info) (U : struct_type) (g : offset_based_getter.t)
    (u : lvalue) (st st' : state) (tup : list reference) :
  object_types Ts = true ->
  simple_aggregate U Ts ->
  offset_based_getter.instantiate U Ts = Some g ->
  (sequence_tuple.size_v Ts < size_t_modulus)%N ->
  make_flat_tuple_of_references u g 0 (sequence_tuple.size_v Ts) st
    = Some (tup, st') ->
  Forall (fun r => r_cv r = lv_cv u) tup
  /\ (is_const (lv_cv u) = true ->
      forall r, In r tup -> forall v s, assign r v s = None).
Proof.
  intros Hwf HU Hg Hn E.
  destruct (flatten_leaves Ts U g Hwf HU Hg u Hn st) as (st1 & E1 & _).
  rewrite E1 in E. injection E as <- <-.
  rewrite (member_references_from Ts U u HU).
  pose proof (references_from_cv (lv_addr u) (lv_cv u) Ts 0) as Hcv.
  split; [exact Hcv|].
  intros Hc r Hr v s. rewrite Forall_forall in Hcv.
  unfold assign. now rewrite (Hcv r Hr), Hc.
Qed.

Lemma flatten_preserves_cv_witness :
  exists tup st',
    make_flat_tuple_of_references (object_at_4096 cv_const) B_getter 0 2
      example_state = Some (tup, st') /\
    Forall (fun r => r_cv r = cv_const) tup.
Proof.
  destruct (make_flat_tuple_of_references (object_at_4096 cv_const) B_getter 0 2
              example_state) as [[tup st']|] eqn:E;
    [|vm_compute in E; discriminate].
  exists tup, st'. split; [reflexivity|].
  apply (flatten_preserves_cv B_members B B_getter (object_at_4096 cv_const)
           example_state st' tup eq_refl eq_refl eq_refl eq_refl E).
Defined.

(** ** Writing through an entry of the flattened tuple, in general *)

(** X5: the entries of the flattened tuple of a record follow each other in
    memory, inside the record, without overlap, also when members are
    tuples that are flattened. So assigning through entry [i] (possible
    when the record is not const) stores the value behind entry [i], and
    leaves what every other entry [j] refers to, and every byte outside the
    storage of entry [i], as it was. *)
Theorem assign_through_flat_entry
    (Ts : list type_info) (U : struct_type) (g : offset_based_getter.t)
    (u : lvalue) (i j : N) (v : list byte)
    (st st1 : state) (tup : list reference) (ri rj : reference) :
  object_types Ts = true ->
  simple_aggregate U Ts ->
  offset_based_getter.instantiate U Ts = Some g ->
  (sequence_tuple.size_v Ts < size_t_modulus)%N ->
  make_flat_tuple_of_references u g 0 (sequence_tuple.size_v Ts) st
    = Some (tup, st1) ->
  sequence_tuple.get i tup = Some ri ->
  sequence_tuple.get j tup = Some rj ->
  i <> j ->
  is_const (lv_cv u) = false ->
  Z.of_nat (length v) = ty_sizeof (r_type ri) ->
  laid_out (lv_addr u) (lv_addr u + st_sizeof U) tup
  /\ (forall a, r_addr ri <= a < r_addr ri + ty_sizeof (r_type ri) ->
                in_record U u a)
  /\ (r_addr ri + ty_sizeof (r_type ri) <= r_addr rj \/
      r_addr rj + ty_sizeof (r_type rj) <= r_addr ri)
  /\ exists st2,
       assign ri v st1 = Some (tt, st2) /\
       read ri (mem st2) = v /\
       read rj (mem st2) = read rj (mem st1) /\
       (forall a, ~ (r_addr ri <= a < r_addr ri + ty_sizeof (r_type ri)) ->
                  mem st2 a = mem st1 a).
Proof.
  intros Hwf HU Hg Hn Hflat Hi Hj Hij Hconst Hlen.
  destruct (flatten_leaves Ts U g Hwf HU Hg u Hn st) as (st1' & E & _).
  rewrite E in Hflat. injection Hflat as <- <-.
  rewrite (member_references_from Ts U u HU) in *.
  pose proof (members_laid_out Ts (lv_addr u) (lv_cv u) Hwf) as Hlaid.
  rewrite <- (instantiate_sizeof Ts U g Hg) in Hlaid.
  unfold sequence_tuple.get in Hi, Hj. rewrite nth_N_nth_error in Hi, Hj.
  pose proof (laid_out_nth _ _ _ _ _ Hlaid Hi) as (Hilo & His & Hihi).
  pose proof (laid_out_nth _ _ _ _ _ Hlaid Hj) as (Hjlo & Hjs & Hjhi).
  assert (r_addr ri + ty_sizeof (r_type ri) <= r_addr rj \/
          r_addr rj + ty_sizeof (r_type rj) <= r_addr ri) as Hdisj.
  { destruct (Nat.lt_total (N.to_nat i) (N.to_nat j)) as [Hlt|[Heq|Hlt]].
    - left. eapply laid_out_before; eauto.
    - lia.
    - right. eapply laid_out_before; eauto. }
  assert (r_cv ri = lv_cv u) as Hcv.
  { pose proof (references_from_cv (lv_addr u) (lv_cv u) Ts 0) as Hcv.
    rewrite Forall_forall in Hcv. apply Hcv. eapply nth_error_In; eauto. }
  split; [exact Hlaid|]. split; [unfold in_record; intros; lia|].
  split; [exact Hdisj|].
  unfold assign. rewrite Hcv, Hconst, (proj2 (Z.eqb_eq _ _) Hlen). cbn [negb].
  eexists. split; [reflexivity|]. cbn [mem].
  assert (forall a, ~ (r_addr ri <= a < r_addr ri + ty_sizeof (r_type ri)) ->
                    store_bytes (mem st1') (r_addr ri) v a = mem st1' a) as Hout.
  { intros a Ha. apply store_bytes_outside. lia. }
  split; [|split; [|exact Hout]].
  - unfold read. rewrite <- Hlen. apply load_store_bytes.
  - unfold read. apply load_bytes_ext. intros a Ha. apply Hout. lia.
Qed.

Lemma assign_through_flat_entry_witness :
  exists tup st1 r1 r2 st2,
    make_flat_tuple_of_references (object_at_4096 cv_none) B_getter 0 2
      example_state = Some (tup, st1) /\
    sequence_tuple.get 1 tup = Some r1 /\
    sequence_tuple.get 2 tup = Some r2 /\
    assign r1 [x07] st1 = Some (tt, st2) /\
    read r1 (mem st2) = [x07] /\
    read r2 (mem st2) = read r2 (mem st1).
Proof.
  destruct (flatten_leaves B_members B B_getter eq_refl eq_refl eq_refl
              (object_at_4096 cv_none) eq_refl example_state)
    as (st1 & E & _).
  destruct (assign_through_flat_entry
              B_members B B_getter (object_at_4096 cv_none) 1 2 [x07]
              example_state st1 _
              {| r_addr := 4097; r_type := char_t; r_cv := cv_none |}
              {| r_addr := 4100; r_type := int_t; r_cv := cv_none |}
              eq_refl eq_refl eq_refl eq_refl E)
    as (_ & _ & _ & st2 & Ha & Hri & Hrj & _).
  - reflexivity.
  - reflexivity.
  - discriminate.
  - reflexivity.
  - reflexivity.
  - eexists _, st1, _, _, st2. split; [exact E|].
    split; [reflexivity|]. split; [reflexivity|].
    split; [exact Ha|]. split; assumption.
Defined.

(** ** The two getters *)

Lemma get_none (g : offset_based_getter.t) (u : lvalue) (idx : N) (st : state) :
  (sequence_tuple.size_v (offset_based_getter.getter_S g) <= idx)%N ->
  offset_based_getter.get g u idx st = None.
Proof.
  intros Hi. rewrite get_run.
  unfold offset_based_getter.index_t, sequence_tuple.tuple_element.
  now rewrite nth_N_None.
Qed.

(** X6: on a record laid out as [S], [offset_based_getter::get] returns the
    reference that [sequence_tuple_getter::get] returns for an object of
    type [S] at the address of the record, and is ill-formed where that
    one is. So when the record is not volatile, flattening it returns the
    tuple that [tie_as_tuple_with_references] returns for that object. *)
Theorem getters_agree
    (Ts : list type_info) (U : struct_type) (g : offset_based_getter.t)
    (u : lvalue) (idx : N) (st : state) :
  object_types Ts = true ->
  offset_based_getter.instantiate U Ts = Some g ->
  option_map fst (offset_based_getter.get g u idx st)
  = option_map fst
      (getter_get Sequence_tuple_getter (as_tuple_lvalue Ts u) idx st)
  /\ (simple_aggregate U Ts ->
      (sequence_tuple.size_v Ts < size_t_modulus)%N ->
      is_volatile (lv_cv u) = false ->
      option_map fst
        (make_flat_tuple_of_references u g 0 (sequence_tuple.size_v Ts) st)
      = option_map fst (tie_as_tuple_with_references [as_tuple Ts u] st)).
Proof.
  intros Hwf Hg. pose proof (instantiate_getter Ts U g Hg) as Hgeq. split.
  - rewrite sequence_tuple_getter_get. unfold lift.
    destruct (N.ltb_spec idx (sequence_tuple.size_v Ts)) as [Hi|Hi].
    + destruct (nth_N_Some Ts idx Hi) as (T & HT).
      destruct (nth_N_Some (member_offsets Ts) idx) as (o & Ho).
      { now rewrite length_member_offsets. }
      assert (yields (layout_addr g) (offset_based_getter.get g u idx)
                (member_reference u T o)) as Hy
        by (apply get_yields; rewrite Hgeq; assumption).
      destruct (Hy st) as (st' & E & _).
      rewrite E. unfold element_references, as_tuple_lvalue, member_reference.
      cbn [tl_types tl_addr tl_cv].
      rewrite nth_N_map, (nth_N_combine _ _ _ _ _ HT Ho). reflexivity.
    + rewrite get_none by (rewrite Hgeq; exact Hi).
      rewrite nth_N_None; [reflexivity|].
      unfold element_references, as_tuple_lvalue. cbn [tl_types].
      rewrite length_map, length_combine, length_member_offsets.
      unfold sequence_tuple.size_v in Hi. lia.
  - intros HU Hn Hq.
    destruct (flatten_leaves Ts U g Hwf HU Hg u Hn st) as (st' & E & _).
    rewrite E.
    assert (object_type (r_type (as_tuple Ts u)) = true) as Hok.
    { cbn [as_tuple r_type object_type]. apply andb_true_iff.
      split; [exact Hwf|]. now apply N.ltb_lt. }
    rewrite (tie_leaves _ Hok).
    rewrite (leaves_tuple (as_tuple Ts u) Ts eq_refl Hq).
    rewrite (member_references_from Ts U u HU). reflexivity.
Qed.

Lemma getters_agree_witness :
  option_map fst
    (offset_based_getter.get A_getter (object_at_4096 cv_const) 1 example_state)
  = option_map fst
      (getter_get Sequence_tuple_getter
         (as_tuple_lvalue A_members (object_at_4096 cv_const)) 1 example_state).
Proof.
  apply (getters_agree A_members A A_getter (object_at_4096 cv_const) 1
           example_state eq_refl eq_refl).
Defined.

(** X7: an index is in range exactly when it is below the number of
    elements: [offset<idx>()] and [get] of the offset-based getter, and
    [get] of [sequence_tuple_getter], are ill-formed exactly for the
    indices that are not. *)
Theorem get_ill_formed_iff
    (g : offset_based_getter.t) (u : lvalue) (t : tuple_lvalue)
    (idx : N) (st : state) :
  (offset_based_getter.offset g idx st = None <->
     (sequence_tuple.size_v (offset_based_getter.getter_S g) <= idx)%N)
  /\ (offset_based_getter.get g u idx st = None <->
     (sequence_tuple.size_v (offset_based_getter.getter_S g) <= idx)%N)
  /\ (getter_get Sequence_tuple_getter t idx st = None <->
     (sequence_tuple.size_v (tl_types t) <= idx)%N).
Proof.
  split; [|split].
  - split.
    + intros E.
      destruct (N.le_gt_cases
                  (sequence_tuple.size_v (offset_based_getter.getter_S g)) idx)
        as [H|H]; [exact H|].
      destruct (get_total g u idx st H) as (T & off & st' & _ & E' & _).
      congruence.
    + apply offset_ill_formed.
  - split.
    + intros E.
      destruct (N.le_gt_cases
                  (sequence_tuple.size_v (offset_based_getter.getter_S g)) idx)
        as [H|H]; [exact H|].
      destruct (get_total g u idx st H) as (T & off & st' & _ & _ & E').
      congruence.
    + apply get_none.
  - rewrite sequence_tuple_getter_get. unfold lift.
    assert (length (element_references t) = length (tl_types t)) as Hlen.
    { unfold element_references.
      rewrite length_map, length_combine, length_member_offsets. lia. }
    split.
    + intros E.
      destruct (N.le_gt_cases (sequence_tuple.size_v (tl_types t)) idx)
        as [H|H]; [exact H|].
      destruct (nth_N_Some (element_references t) idx) as (r & Hr).
      { unfold sequence_tuple.size_v in H. lia. }
      rewrite Hr in E. discriminate.
    + intros H. rewrite nth_N_None; [reflexivity|].
      unfold sequence_tuple.size_v in H. lia.
Qed.

Lemma get_ill_formed_iff_witness :
  offset_based_getter.get A_getter (object_at_4096 cv_none) 3 example_state
  = None.
Proof.
  apply (get_ill_formed_iff A_getter (object_at_4096 cv_none)
           (as_tuple_lvalue A_members (object_at_4096 cv_none)) 3 example_state).
  discriminate.
Defined.

Lemma traverse_fails {A B : Type} (f : A -> M B) (l : list A) (x : A) :
  In x l -> (forall s, f x s = None) -> forall st, traverse f l st = None.
Proof.
  induction l as [|a l IH]; intros Hin Hx st; [contradiction|].
  cbn [traverse]. unfold bind.
  destruct Hin as [->|Hin].
  - now rewrite Hx.
  - destruct (f a st) as [[y s1]|]; [|reflexivity].
    now rewrite (IH Hin Hx s1).
Qed.

(** X8: the builder over the members [Begin, Begin + Size) of a record is
    ill-formed exactly when the range is not empty and reaches past the
    last member. *)
Theorem make_flat_well_formed_iff
    (Ts : list type_info) (U : struct_type) (g : offset_based_getter.t)
    (u : lvalue) (Begin Size : N) (st : state) :
  object_types Ts = true ->
  offset_based_getter.instantiate U Ts = Some g ->
  (Begin + Size <= size_t_modulus)%N ->
  (make_flat_tuple_of_references u g Begin Size st = None <->
   (0 < Size)%N /\ (sequence_tuple.size_v Ts < Begin + Size)%N).
Proof.
  intros Hwf Hg HBS. pose proof (instantiate_getter Ts U g Hg) as Hgeq.
  destruct (N.eq_dec Size 0) as [->|H0].
  { rewrite make_flat_0. split; [discriminate|lia]. }
  assert (Begin < size_t_modulus)%N as HB by lia.
  rewrite (make_flat_leaves u g Begin Size HB
             (fun k _ s r s' => get_object_type Ts U g Hwf Hg u _ s r s')).
  unfold bind, ret.
  destruct (N.le_gt_cases (Begin + Size) (sequence_tuple.size_v Ts)) as [Hin|Hout].
  - destruct (traverse_total
                (fun k => getter_get g u (size_t_add Begin k))
                (make_index_sequence Size)) with (st := st) as (rs & st' & E).
    { intros k Hk s. apply in_make_index_sequence in Hk.
      rewrite size_t_add_small by lia.
      destruct (get_total g u (Begin + k)%N s) as (T & off & s' & _ & _ & E).
      { rewrite Hgeq. cbn [offset_based_getter.getter_S]. lia. }
      eauto. }
    rewrite E. split; [discriminate|lia].
  - rewrite (traverse_fails _ _ (Size - 1)%N).
    + split; [lia|reflexivity].
    + unfold make_index_sequence. apply in_map_iff.
      exists (N.to_nat (Size - 1)). split; [lia|]. apply in_seq. lia.
    + intros s. rewrite size_t_add_small by lia.
      apply get_none. rewrite Hgeq. cbn [offset_based_getter.getter_S]. lia.
Qed.

Lemma make_flat_well_formed_iff_witness :
  make_flat_tuple_of_references (object_at_4096 cv_none) A_getter 2 2
    example_state = None.
Proof.
  apply (make_flat_well_formed_iff A_members A A_getter (object_at_4096 cv_none)
           2 2 example_state eq_refl eq_refl).
  - discriminate.
  - split; reflexivity.
Defined.

(** ** Splitting the range anywhere *)

(** X9: the result of the builder does not depend on where the range is
    split: for every way to write the size as [a + b], building the first
    [a] elements and the next [b] and concatenating them with
    [my_tuple_cat] gives what the builder gives on the whole range. The
    halving of the source is one such split. *)
Theorem make_flat_any_split
    {G Tuple : Type} {getter : Getter G Tuple}
    (t : Tuple) (g : G) (Begin a b : N) :
  (Begin < size_t_modulus)%N ->
  (forall k, (k < a + b)%N -> forall st r st',
     getter_get g t (size_t_add Begin k) st = Some (r, st') ->
     object_type (r_type r) = true) ->
  make_flat_tuple_of_references t g Begin (a + b)
  =~= (x <- make_flat_tuple_of_references t g Begin a ;;
       y <- make_flat_tuple_of_references t g (size_t_add Begin a) b ;;
       my_tuple_cat x y).
Proof.
  intros HB HP.
  assert (size_t_add Begin a < size_t_modulus)%N as HB'.
  { unfold size_t_add. apply N.mod_lt. discriminate. }
  eapply equiv_trans; [apply (make_flat_leaves t g Begin (a + b) HB HP)|].
  eapply equiv_trans;
    [|apply equiv_sym; apply bind_equiv;
      [apply (make_flat_leaves t g Begin a HB)
      |intros x; apply bind_equiv;
       [apply (make_flat_leaves t g (size_t_add Begin a) b HB')
       |intros y; apply equiv_refl]]].
  - intros st. unfold bind, ret.
    rewrite (make_index_sequence_split (a + b) a) by lia.
    replace (a + b - a)%N with b by lia.
    rewrite (traverse_app _ _ _ st). unfold bind, ret.
    destruct (traverse _ (make_index_sequence a) st) as [[xs s1]|];
      [|reflexivity].
    rewrite (traverse_map _ _ _ s1).
    rewrite (traverse_equiv _
               (fun k => getter_get g t (size_t_add (size_t_add Begin a) k))
               _ (fun k s => f_equal (fun i => getter_get g t i s)
                               (eq_sym (size_t_add_assoc Begin a k))) s1).
    destruct (traverse _ (make_index_sequence b) s1) as [[ys s2]|];
      [|reflexivity].
    rewrite my_tuple_cat_tie, <- flat_map_app.
    rewrite (tie_inert _ (flat_map_leaves_inert_all (xs ++ ys))).
    reflexivity.
  - intros k Hk. apply HP. lia.
  - intros k Hk st r st'. rewrite size_t_add_assoc. apply HP. lia.
Qed.

Lemma make_flat_any_split_witness :
  make_flat_tuple_of_references (object_at_4096 cv_none) B_getter 0 (2 + 0)
    example_state
  = (x <- make_flat_tuple_of_references (object_at_4096 cv_none) B_getter 0 2 ;;
     y <- make_flat_tuple_of_references (object_at_4096 cv_none) B_getter
            (size_t_add 0 2) 0 ;;
     my_tuple_cat x y) example_state.
Proof.
  apply (make_flat_any_split (object_at_4096 cv_none) B_getter 0 2 0).
  - reflexivity.
  - intros k _ st r st'.
    apply (get_object_type B_members B B_getter eq_refl eq_refl).
Defined.

(** ** The layout object *)




(** ** The number of entries *)

(** X11: the flattened tuple of a record has one entry for every member
    that is not a tuple, and for a member that is a tuple what its
    elements contribute; when the record is volatile, one entry for every
    member. *)
Theorem flatten_arity
    (Ts : list type_info) (U : struct_type) (g : offset_based_getter.t)
    (u : lvalue) (st st' : state) (tup : list reference) :
  object_types Ts = true ->
  simple_aggregate U Ts ->
  offset_based_getter.instantiate U Ts = Some g ->
  (sequence_tuple.size_v Ts < size_t_modulus)%N ->
  make_flat_tuple_of_references u g 0 (sequence_tuple.size_v Ts) st
    = Some (tup, st') ->
  sequence_tuple.size_v tup = N.of_nat (leaf_counts (is_volatile (lv_cv u)) Ts)
  /\ (is_volatile (lv_cv u) = true ->
      tup = member_references U u
      /\ sequence_tuple.size_v tup = sequence_tuple.size_v Ts).
Proof.
  intros Hwf HU Hg Hn Hflat.
  destruct (flatten_leaves Ts U g Hwf HU Hg u Hn st) as (st1 & E & _).
  rewrite E in Hflat. injection Hflat as <- <-.
  rewrite (member_references_from Ts U u HU).
  split.
  - unfold sequence_tuple.size_v. now rewrite references_from_length.
  - intros Hv.
    assert (flat_map leaves (references_from (lv_addr u) (lv_cv u) 0 Ts)
            = references_from (lv_addr u) (lv_cv u) 0 Ts) as ->.
    { apply flat_map_leaves_inert. apply Forall_forall. intros r Hr.
      unfold references_from in Hr. apply in_map_iff in Hr.
      destruct Hr as (m & <- & _). unfold flattens. cbn [r_type r_cv].
      rewrite Hv. now destruct (fst m). }
    split; [reflexivity|].
    unfold sequence_tuple.size_v, references_from.
    rewrite length_map, length_combine, length_layout_from, length_map.
    f_equal. lia.
Qed.

Lemma flatten_arity_witness :
  exists tup st',
    make_flat_tuple_of_references (object_at_4096 cv_none) B_getter 0 2
      example_state = Some (tup, st')
    /\ sequence_tuple.size_v tup = 3%N.
Proof.
  destruct (flatten_leaves B_members B B_getter eq_refl eq_refl eq_refl
              (object_at_4096 cv_none) eq_refl example_state)
    as (st1 & E & _).
  eexists _, st1. split; [exact E|].
  apply (flatten_arity B_members B B_getter (object_at_4096 cv_none)
           example_state st1 _ eq_refl eq_refl eq_refl eq_refl E).
Defined.

(** ** Alignment *)

Lemma layout_from_aligned (l : list shape) :
  forall cur i o m,
    nth_N (layout_from cur l) i = Some o ->
    nth_N l i = Some m ->
    0 < snd m ->
    o mod snd m = 0.
Proof.
  induction l as [|[s a] l IH]; intros cur i o m Ho Hm Hpos;
    [discriminate|].
  cbn [layout_from nth_N] in Ho, Hm.
  destruct (N.eqb i 0).
  - injection Ho as <-. injection Hm as <-. cbn [snd] in *.
    now apply align_up_mod.
  - eapply IH; eauto.
Qed.

(** X12: the reference that [get] returns lies inside the record, at an
    offset that is a multiple of the alignment of the member type; so it
    is aligned for that type when the address of the record is. *)
Theorem get_aligned
    (Ts : list type_info) (U : struct_type) (g : offset_based_getter.t)
    (u : lvalue) (idx : N) (st st' : state) (r : reference) :
  object_types Ts = true ->
  offset_based_getter.instantiate U Ts = Some g ->
  offset_based_getter.get g u idx st = Some (r, st') ->
  0 < ty_alignof (r_type r)
  /\ (r_addr r - lv_addr u) mod ty_alignof (r_type r) = 0
  /\ (lv_addr u mod ty_alignof (r_type r) = 0 ->
      r_addr r mod ty_alignof (r_type r) = 0)
  /\ lv_addr u <= r_addr r
  /\ r_addr r + ty_sizeof (r_type r) <= lv_addr u + st_sizeof U.
Proof.
  intros Hwf Hg E. pose proof (instantiate_getter Ts U g Hg) as Hgeq.
  rewrite get_run in E.
  unfold offset_based_getter.index_t, sequence_tuple.tuple_element in E.
  destruct (nth_N (offset_based_getter.getter_S g) idx) as [T|] eqn:HT;
    [|discriminate].
  rewrite offset_value in E.
  destruct (nth_N _ idx) as [o|] eqn:Ho in E; [|discriminate].
  cbn [option_map] in E. injection E as <- _.
  cbn [r_addr r_type].
  rewrite Hgeq in HT, Ho. cbn [offset_based_getter.getter_S] in HT, Ho.
  unfold tuple_of_aligned_storage_t in Ho.
  rewrite (member_offsets_aligned_storage Ts Hwf) in Ho.
  pose proof (object_types_nth Ts idx T Hwf HT) as HTok.
  destruct (shape_ok_spec _ (object_type_shape T HTok)) as (Ha & Hs & _).
  change (0 < ty_alignof T) in Ha. change (0 < ty_sizeof T) in Hs.
  assert (o mod ty_alignof T = 0) as Hmod.
  { unfold member_offsets in Ho.
    apply (layout_from_aligned _ _ _ _ (ty_shape T) Ho); [|exact Ha].
    rewrite nth_N_map, HT. reflexivity. }
  destruct (member_in_aggregate Ts idx T o Hwf HT Ho) as (Hlo & Hhi).
  rewrite (instantiate_sizeof Ts U g Hg).
  split; [exact Ha|]. split; [|split].
  - replace (lv_addr u + o - lv_addr u) with o by lia. exact Hmod.
  - intros Hu. rewrite Z.add_mod by lia. rewrite Hu, Hmod. cbn [Z.add].
    apply Z.mod_0_l. lia.
  - revert Hlo Hhi.
    generalize (lv_addr u), (ty_sizeof T), (aggregate_sizeof (map ty_shape Ts)).
    intros; lia.
Qed.

Lemma get_aligned_witness :
  exists st',
    offset_based_getter.get A_getter (object_at_4096 cv_none) 1 example_state
      = Some ({| r_addr := 4104; r_type := double_t; r_cv := cv_none |}, st')
    /\ 4104 mod ty_alignof double_t = 0.
Proof.
  destruct (get_yields A_getter (object_at_4096 cv_none) 1 double_t 8
              eq_refl eq_refl eq_refl example_state) as (st' & E & _).
  exists st'. split; [exact E|].
  destruct (get_aligned A_members A A_getter (object_at_4096 cv_none) 1
              example_state st' _ eq_refl eq_refl E) as (_ & _ & H & _).
  apply H. reflexivity.
Defined.
